(** * s2omp::circle_bound: a spherical cap against points and pixels

    A shallow embedding of [trunk/s2omp/circle_bound.cc] and the properties
    its specification states about it.

    Number model.  A C++ [double] is modelled by an exact rational ([Q]):
    the comparisons and the arithmetic of the source are kept, rounding,
    infinities and NaN are not modelled.  Equalities between computed
    doubles are therefore stated with [==] ([Qeq]).  C++ [int] and [long]
    values are modelled by [Z]; the loop counters of the source stay far
    inside the machine range.

    Undefined behaviour.  Reading a [point_vector] outside its range is
    undefined in C++; the model makes it an explicit failure ([None]) that
    every caller propagates. *)

From Stdlib Require Import QArith ZArith List Bool Lia Lqa.
Import ListNotations.
Local Open Scope Q_scope.

(** ** Doubles and their comparisons *)

Definition double : Type := Q.

(** [a <= b] on doubles, as a boolean. *)
Definition dle (a b : double) : bool := Qle_bool a b.

(** [a < b] on doubles, as a boolean. *)
Definition dlt (a b : double) : bool :=
  (Qnum a * QDen b <? Qnum b * QDen a)%Z.

(** [a >= b] and [a > b] are the mirrored comparisons, as in C++. *)
Definition dge (a b : double) : bool := dle b a.
Definition dgt (a b : double) : bool := dlt b a.

(** ** A small error monad for out-of-range reads *)

Definition obind {A B : Type} (m : option A) (f : A -> option B) : option B :=
  match m with
  | Some a => f a
  | None => None
  end.

Notation "x <- m ;; k" := (obind m (fun x => k))
  (at level 61, m at next level, right associativity).

(** [v[i]] on a [std::vector]: defined inside the range only. *)
Definition vec_at {A : Type} (v : list A) (i : Z) : option A :=
  if (i <? 0)%Z then None else nth_error v (Z.to_nat i).

(** ** Points *)

(** Modelled from the spec: the class [point] (its header and source are not
    part of the sources at hand).  A point is a vector of three coordinates
    with a scalar weight; the constructor is [point(x, y, z, weight)]. *)
Record point : Type := mk_point {
  px : double;
  py : double;
  pz : double;
  weight : double
}.

(** Modelled from the spec: [point::dot], the scalar product of the
    coordinates. *)
Definition dot (a b : point) : double :=
  px a * px b + py a * py b + pz a * pz b.

(** Modelled from the spec: [point::cross], the vector product; the result
    keeps the weight of the receiver. *)
Definition cross (a b : point) : point :=
  mk_point (py a * pz b - pz a * py b)
           (pz a * px b - px a * pz b)
           (px a * py b - py a * px b)
           (weight a).

(** Modelled from the spec: unary minus on a point ([-axis_]), the opposite
    direction with the same weight. *)
Definition neg (a : point) : point :=
  mk_point (- px a) (- py a) (- pz a) (weight a).

(** Modelled from the spec: [point::set_weight]. *)
Definition set_weight (p : point) (w : double) : point :=
  mk_point (px p) (py p) (pz p) w.

(** A point of the unit sphere. *)
Definition is_unit (p : point) : Prop := dot p p == 1.

(** ** Pixels *)

(** Modelled from the spec: the class [pixel] (not part of the sources at
    hand), through what [circle_bound] observes of it: [vertex(k)] and
    [edge(k)] for an [int] index, the point test [contains], [exact_area()]
    and the children that [child_begin()] .. [child_end()] iterate over.
    The hierarchy is a finite tree: a pixel of the finest resolution has no
    children. *)
#[warnings="-register-all"]
Inductive pixel : Type := mk_pixel {
  vertex : Z -> point;
  edge : Z -> point;
  pixel_contains : point -> bool;
  exact_area : double;
  children : list pixel
}.

(** ** The circle bound *)

(** The two members every geometric query reads.  The members of the random
    sampler ([initialized_random_], [rotate_], [great_circle_norm_],
    [mtrand]) are kept apart, in [sampler] below: the constructors do not
    set them and the geometric queries never read them. *)
Record circle_bound : Type := mk_circle_bound {
  axis_ : point;
  height_ : double
}.

(** [circle_bound::circle_bound()]; [axis_] keeps what the default
    constructor of [point] builds, which is a parameter here. *)
Definition circle_bound_default (default_axis : point) : circle_bound :=
  mk_circle_bound default_axis (-1).

(** [circle_bound::circle_bound(const point&, double)] *)
Definition circle_bound_new (axis : point) (height : double) : circle_bound :=
  mk_circle_bound axis height.

(** [circle_bound::from_height] *)
Definition from_height (axis : point) (height : double) : circle_bound :=
  circle_bound_new axis height.

(** [circle_bound::is_empty] *)
Definition is_empty (b : circle_bound) : bool := dlt (height_ b) 0.

(** [circle_bound::size] *)
Definition size (b : circle_bound) : Z :=
  if is_empty b then 0%Z else 1%Z.

(** [circle_bound::contains(const point&)] *)
Definition contains (b : circle_bound) (p : point) : bool :=
  let p_height := 1 - dot (axis_ b) p in
  dge (height_ b) p_height.

(** [circle_bound::complement] *)
Definition complement (b : circle_bound) : circle_bound :=
  if is_empty b then from_height (neg (axis_ b)) 2
  else from_height (neg (axis_ b)) (2 - height_ b).

(** ** The edge and vertex test *)

(** The body of the [for (int k = 0; k < 4; ++k)] loop of
    [circle_bound::intersects], run over the indices still to visit.
    [continue] goes on with the remaining indices, [return] ends the loop. *)
Fixpoint intersects_edges (b : circle_bound) (pix : pixel)
    (vertices : list point) (sin2_angle : double) (ks : list Z)
    : option bool :=
  match ks with
  | [] => Some false
  | k :: rest =>
      let edge := edge pix k in
      let dot_ := dot (axis_ b) edge in
      if dgt dot_ 0 then intersects_edges b pix vertices sin2_angle rest
      else if dgt (dot_ * dot_) sin2_angle then Some false
      else
        let dir := cross edge (axis_ b) in
        vk <- vec_at vertices k ;;
        if dlt (dot dir vk) 0 then
          vk1 <- vec_at vertices (Z.land (k + 1) 3) ;;
          if dgt (dot dir vk1) 0 then Some true
          else intersects_edges b pix vertices sin2_angle rest
        else intersects_edges b pix vertices sin2_angle rest
  end.

(** [circle_bound::intersects] *)
Definition intersects (b : circle_bound) (pix : pixel) (vertices : list point)
    : option bool :=
  if dge (height_ b) 1 then Some false
  else if is_empty b then Some false
  else if pixel_contains pix (axis_ b) then Some true
  else
    let sin2_angle := height_ b * (2 - height_ b) in
    intersects_edges b pix vertices sin2_angle [0; 1; 2; 3]%Z.

(** [v.back()] on a [std::vector]: defined on a non-empty vector only. *)
Definition vec_back {A : Type} (v : list A) : option A :=
  match rev v with
  | [] => None
  | a :: _ => Some a
  end.

(** The loop of [circle_bound::may_intersect] over the indices still to
    visit: [inr ans] when the loop returns [ans], [inl vertices] when it runs
    to its end.  The index of the loop is not used by its body, which reads
    [pix.vertex(4)] at every turn. *)
Fixpoint may_intersect_loop (b : circle_bound) (pix : pixel)
    (vertices : list point) (ks : list Z) : option (list point + bool) :=
  match ks with
  | [] => Some (inl vertices)
  | _ :: rest =>
      let vertices := vertices ++ [vertex pix 4] in
      back <- vec_back vertices ;;
      if contains b back then Some (inr true)
      else may_intersect_loop b pix vertices rest
  end.

(** [circle_bound::may_intersect] *)
Definition may_intersect (b : circle_bound) (pix : pixel) : option bool :=
  r <- may_intersect_loop b pix [] [0; 1; 2; 3]%Z ;;
  match r with
  | inr ans => Some ans
  | inl vertices => intersects b pix vertices
  end.

(** The loop of [circle_bound::contains(const pixel&)]: [false] when it
    returns [false], [true] when it runs to its end. *)
Fixpoint contains_loop (b : circle_bound) (pix : pixel) (ks : list Z) : bool :=
  match ks with
  | [] => true
  | k :: rest =>
      if negb (contains b (vertex pix k)) then false
      else contains_loop b pix rest
  end.

(** [circle_bound::contains(const pixel&)] *)
Definition contains_pixel (b : circle_bound) (pix : pixel) : option bool :=
  if contains_loop b pix [0; 1; 2; 3]%Z then
    let comp := complement b in
    m <- may_intersect comp pix ;;
    let ans := negb m in
    Some ans
  else Some false.

(** One turn of the loop of [contained_area] over the children:
    [area += contained_area(child)]. *)
Definition add_area (f : pixel -> option double) (area : option double)
    (child : pixel) : option double :=
  a <- area ;;
  c <- f child ;;
  Some (a + c).

(** [circle_bound::contained_area] *)
Fixpoint contained_area (b : circle_bound) (pix : pixel) : option double :=
  match pix with
  | mk_pixel _ _ _ pix_exact_area pix_children =>
      let area := 0 in
      c <- contains_pixel b pix ;;
      if c then Some pix_exact_area
      else
        m <- may_intersect b pix ;;
        if m then fold_left (add_area (contained_area b)) pix_children (Some area)
        else Some area
  end.

(** ** Area and the constructors that need the math library *)

Section MathConstants.

(** The macros [PI] and [DEG_TO_RAD] and the function [cos] of the math
    library are not part of the sources at hand; they are parameters. *)
Variable PI : double.
Variable DEG_TO_RAD : double.
Variable c_cos : double -> double.

(** [circle_bound::area] *)
Definition area (b : circle_bound) : double :=
  if negb (is_empty b) then 2 * PI * height_ b else 0.

(** [circle_bound::from_radius] *)
Definition from_radius (axis : point) (radius_degrees : double)
    : circle_bound :=
  circle_bound_new axis (1 - c_cos (radius_degrees * DEG_TO_RAD)).

(** Modelled from the spec: the class [angular_bin], through the one
    member [from_angular_bin] reads. *)
Record angular_bin : Type := mk_angular_bin { cos_theta_max : double }.

(** [circle_bound::from_angular_bin] *)
Definition from_angular_bin (axis : point) (bin : angular_bin)
    : circle_bound :=
  circle_bound_new axis (1 - cos_theta_max bin).

End MathConstants.

(** ** Reserving room in a vector *)

(** What a call that may throw [std::length_error] comes to: it returns, or
    it throws; either way the state reached is recorded. *)
Inductive outcome (A : Type) : Type :=
| Returns (a : A)
| Throws_length_error (a : A).

Arguments Returns {A} a.
Arguments Throws_length_error {A} a.

(** A [long] converted to [size_t] (64 bits, as [long] is): a negative value
    becomes a value of [2^63] or more. *)
Definition to_size_t (n : Z) : Z := n mod 2 ^ 64.

(** [v.reserve(n)] for a [long n]: [true] when the call returns, [false]
    when the converted size is above [max_size()] and the call throws
    [std::length_error].  A failure of the allocation itself is not
    modelled. *)
Definition vec_reserve (max_size n : Z) : bool :=
  (to_size_t n <=? max_size)%Z.

(** ** Random sampling *)

Section Sampling.

(** The generator [MTRand] is not part of the sources at hand.  Its state
    is a parameter, and so are the three members the source calls; each
    draw returns the drawn value and the next state. *)
Variable rng : Type.
Variable mt_seed : rng -> rng.
Variable mt_rand : double -> rng -> double * rng.
Variable mt_randInt : Z -> rng -> Z * rng.

(** [PI], [sin], [cos], [acos], the three-coordinate constructor of
    [point] and [point::rotate_about] are parameters as well. *)
Variable PI : double.
Variables c_sin c_cos c_acos : double -> double.
Variable point_xyz : double -> double -> double -> point.
Variable rotate_about : point -> point -> double -> point.

(** The members of a bound that the random sampler reads and writes. *)
Record sampler : Type := mk_sampler {
  initialized_random_ : bool;
  rotate_ : double;
  great_circle_norm_ : point;
  mtrand : rng
}.

(** [circle_bound::initialize_random]; the flag [initialized_random_] is
    left as it is. *)
Definition initialize_random (b : circle_bound) (s : sampler) : sampler :=
  mk_sampler (initialized_random_ s)
             (dot (axis_ b) (mk_point 0 0 1 1))
             (cross (mk_point 0 0 1 1) (axis_ b))
             (mt_seed (mtrand s)).

(** [circle_bound::get_random_point] *)
Definition get_random_point (b : circle_bound) (s : sampler)
    : point * sampler :=
  let s := if negb (initialized_random_ s) then initialize_random b s
           else s in
  let (r, g) := mt_rand (height_ b) (mtrand s) in
  let z := r + 1 - height_ b in
  let (phi, g) := mt_rand (2 * PI) g in
  let sintheta := c_sin (c_acos z) in
  let p := point_xyz (sintheta * c_cos phi) (sintheta * c_sin phi) z in
  let p := rotate_about p (great_circle_norm_ s) (rotate_ s) in
  (p, mk_sampler (initialized_random_ s) (rotate_ s)
                 (great_circle_norm_ s) g).

(** The loop of [get_random_points]: [n] further turns. *)
Fixpoint get_random_points_loop (b : circle_bound) (n : nat)
    (points : list point) (s : sampler) : list point * sampler :=
  match n with
  | O => (points, s)
  | S n' =>
      let (p, s) := get_random_point b s in
      get_random_points_loop b n' (points ++ [p]) s
  end.

(** [vector::max_size()] of a [point_vector] is a parameter. *)
Variable max_size : Z.

(** [circle_bound::get_random_points]; [points] is the vector the caller
    hands in, the outcome carries its final content. *)
Definition get_random_points (b : circle_bound) (n_points : Z)
    (points : list point) (s : sampler) : outcome (list point * sampler) :=
  let points := if negb (Nat.eqb (length points) 0) then [] else points in
  if vec_reserve max_size n_points then
    Returns (get_random_points_loop b (Z.to_nat n_points) points s)
  else Throws_length_error (points, s).

(** [circle_bound::get_weighted_random_point] *)
Definition get_weighted_random_point (b : circle_bound)
    (points : list point) (s : sampler) : option (point * sampler) :=
  let (p, s) := get_random_point b s in
  let (i, g) := mt_randInt (Z.of_nat (length points)) (mtrand s) in
  chosen <- vec_at points i ;;
  let p := set_weight p (weight chosen) in
  Some (p, mk_sampler (initialized_random_ s) (rotate_ s)
                      (great_circle_norm_ s) g).

(** The loop of [get_weighted_random_points]: [n] further turns. *)
Fixpoint get_weighted_random_points_loop (b : circle_bound) (n : nat)
    (points input_points : list point) (s : sampler)
    : list point * sampler :=
  match n with
  | O => (points, s)
  | S n' =>
      let (p, s) := get_random_point b s in
      let (i, g) := mt_randInt (Z.of_nat (length input_points)) (mtrand s) in
      let p := set_weight p (inject_Z i) in
      let s := mk_sampler (initialized_random_ s) (rotate_ s)
                          (great_circle_norm_ s) g in
      get_weighted_random_points_loop b n' (points ++ [p]) input_points s
  end.

(** [circle_bound::get_weighted_random_points] *)
Definition get_weighted_random_points (b : circle_bound) (n_points : Z)
    (points input_points : list point) (s : sampler)
    : list point * sampler :=
  let points := if negb (Nat.eqb (length points) 0) then [] else points in
  get_weighted_random_points_loop b (Z.to_nat n_points) points
    input_points s.

End Sampling.

Arguments mk_sampler {rng}.
Arguments initialized_random_ {rng}.
Arguments rotate_ {rng}.
Arguments great_circle_norm_ {rng}.
Arguments mtrand {rng}.

(** ** The verdict of one edge, in the words of the specification *)

(** [axis . edge(k)] *)
Definition edge_dot (b : circle_bound) (pix : pixel) (k : Z) : double :=
  dot (axis_ b) (edge pix k).

(** Edge [k] has [dot <= 0] and [dot^2 > height * (2 - height)]. *)
Definition edge_rejects (b : circle_bound) (pix : pixel) (k : Z) : Prop :=
  edge_dot b pix k <= 0
  /\ height_ b * (2 - height_ b) < edge_dot b pix k * edge_dot b pix k.

(** Edge [k] has [dot <= 0], [dot^2 <= height * (2 - height)] and, with
    [dir = edge(k) x axis], [dir . vertex[k] < 0] and
    [dir . vertex[(k+1) mod 4] > 0]. *)
Definition edge_confirms (b : circle_bound) (pix : pixel)
    (vertices : list point) (k : Z) : Prop :=
  edge_dot b pix k <= 0
  /\ edge_dot b pix k * edge_dot b pix k <= height_ b * (2 - height_ b)
  /\ exists vk vk1 : point,
       vec_at vertices k = Some vk
       /\ vec_at vertices ((k + 1) mod 4) = Some vk1
       /\ dot (cross (edge pix k) (axis_ b)) vk < 0
       /\ 0 < dot (cross (edge pix k) (axis_ b)) vk1.


(** The triple product [a . (b x c)]. *)
Definition det3 (a b c : point) : double := dot a (cross b c).

(** A pixel that is a convex spherical cell: every edge direction is a unit
    vector orthogonal to the two vertices of its edge, the vertices follow
    each other counter-clockwise around it, and every vertex is on the inner
    side of every edge. *)
Definition convex_cell (pix : pixel) : Prop :=
  forall k, (0 <= k < 4)%Z ->
    is_unit (edge pix k)
    /\ dot (edge pix k) (vertex pix k) == 0
    /\ dot (edge pix k) (vertex pix ((k + 1) mod 4)) == 0
    /\ 0 < det3 (edge pix k) (vertex pix k) (vertex pix ((k + 1) mod 4))
    /\ forall j, (0 <= j < 4)%Z -> 0 <= dot (edge pix j) (vertex pix k).

(** The weight of a point is an integer index, converted to a double. *)
Definition index_weight (p : point) : Prop :=
  exists i : Z, weight p = inject_Z i.

(** The four vertices of a pixel, as a caller of [intersects] fetches
    them. *)
Definition vertices_of (pix : pixel) : list point :=
  [vertex pix 0; vertex pix 1; vertex pix 2; vertex pix 3].

(** ** Concrete points, bounds and pixels used in the examples *)

Definition north : point := mk_point 0 0 1 1.
Definition south : point := mk_point 0 0 (-1) 1.
Definition east : point := mk_point 1 0 0 1.

(** A spherical quadrilateral with rational unit vertices, listed
    counter-clockwise, and the unit inward normals of its four edges
    (the normal of edge [k] is orthogonal to vertices [k] and [k+1]). *)
Definition quad_v0 : point := mk_point (4#13) (12#13) (3#13) 1.
Definition quad_v1 : point := mk_point (4#13) (-12#13) (3#13) 1.
Definition quad_v2 : point := mk_point (4#5) (-3#5) 0 1.
Definition quad_v3 : point := mk_point (4#5) (3#5) 0 1.

Definition quad_e0 : point := mk_point (3#5) 0 (-4#5) 1.
Definition quad_e1 : point := mk_point (3#13) (4#13) (12#13) 1.
Definition quad_e2 : point := mk_point 0 0 1 1.
Definition quad_e3 : point := mk_point (3#13) (-4#13) (12#13) 1.

(** A point inside the quadrilateral. *)
Definition quad_inner : point := mk_point (12#13) 0 (5#13) 1.

(** The quadrilateral as a pixel without children.  A point is inside when
    it is on the inner side of the four edges.  [out_of_range] is what
    [vertex] and [edge] answer for an index outside 0..3. *)
Definition quad (out_of_range : point) : pixel :=
  mk_pixel
    (fun k => match k with
              | 0%Z => quad_v0 | 1%Z => quad_v1
              | 2%Z => quad_v2 | 3%Z => quad_v3
              | _ => out_of_range
              end)
    (fun k => match k with
              | 0%Z => quad_e0 | 1%Z => quad_e1
              | 2%Z => quad_e2 | 3%Z => quad_e3
              | _ => out_of_range
              end)
    (fun p => dge (dot quad_e0 p) 0 && dge (dot quad_e1 p) 0
              && dge (dot quad_e2 p) 0 && dge (dot quad_e3 p) 0)
    (1#2)
    [].

(** A small cap next to vertex 1 of the quadrilateral, its axis outside the
    quadrilateral. *)
Definition corner_cap : circle_bound :=
  from_height (mk_point (3#13) (-12#13) (4#13) 1) (1#10).

(** A cap larger than a hemisphere around the south pole: every point with
    [z <= 1/2]. *)
Definition southern_cap : circle_bound := from_height south (3#2).

(** A cap of height 1/2 around the north pole. *)
Definition polar_cap : circle_bound := from_height north (1#2).


(** The same quadrilateral with an edge direction that is not normalised:
    [edge(1)] is twice the unit normal of edge 1.  The direction, and so the
    side a point lies on, is the same. *)
Definition quad_long_edge : pixel :=
  mk_pixel
    (vertex (quad quad_v0))
    (fun k => match k with
              | 1%Z => mk_point (6#13) (8#13) (24#13) 1
              | _ => edge (quad quad_v0) k
              end)
    (pixel_contains (quad quad_v0))
    (exact_area (quad quad_v0))
    [].

(** A cap outside edges 1 and 2 of the quadrilateral that reaches across
    edge 2 between vertices 2 and 3 and contains none of the vertices. *)
Definition side_cap : circle_bound :=
  from_height (mk_point (2#3) (-1#3) (-2#3) 1) (13#50).

(** A stand-in generator for the examples: its state counts the draws, and
    [rand(x)] answers [x] itself. *)
Definition counting_rand (x : double) (g : nat) : double * nat := (x, S g).

(** A sampler that has not been initialised, on the stand-in generator. *)
Definition fresh_sampler : sampler nat := mk_sampler false 0 north 0%nat.

(** [get_random_points] on the stand-in generator, with stand-ins for the
    math library as well, and a [max_size()] of 1000. *)
Definition example_get_random_points :
  circle_bound -> Z -> list point -> sampler nat ->
  outcome (list point * sampler nat) :=
  get_random_points nat (fun g => g) counting_rand 3
    (fun x => x) (fun x => x) (fun x => x)
    (fun x y z => mk_point x y z 1) (fun p _ _ => p) 1000.

(** A reference catalogue of one point, of weight 5/2. *)
Definition one_reference : list point := [mk_point 0 0 1 (5#2)].

(** The quadrilateral with four children of an eighth of the sphere's
    area unit each, for the examples on hierarchies. *)
Definition quad_leaf : pixel :=
  mk_pixel (vertex (quad quad_v0)) (edge (quad quad_v0))
    (pixel_contains (quad quad_v0)) (1#8) [].

Definition quad_tree : pixel :=
  mk_pixel (vertex (quad quad_v0)) (edge (quad quad_v0))
    (pixel_contains (quad quad_v0)) (1#2)
    [quad_leaf; quad_leaf; quad_leaf; quad_leaf].

(** ** Well-formed pixel hierarchies *)

(** The sum of a list of areas, from 0, in the order of the list. *)
Definition sum_areas (areas : list double) : double :=
  fold_left Qplus areas 0.

(** A hierarchy whose areas make sense: no exact area is negative, and the
    exact areas of the children of a pixel add up to at most the exact area
    of the pixel. *)
Fixpoint hierarchy_ok (pix : pixel) : Prop :=
  match pix with
  | mk_pixel _ _ _ a ch =>
      0 <= a
      /\ sum_areas (map exact_area ch) <= a
      /\ (fix all_ok (l : list pixel) : Prop :=
            match l with
            | [] => True
            | child :: rest => hierarchy_ok child /\ all_ok rest
            end) ch
  end.

(** Two points with the same coordinates. *)
Definition same_direction (p q : point) : Prop :=
  px p == px q /\ py p == py q /\ pz p == pz q.

(** ** trunk/stomp_core.cc *)

Module Stomp.

(** A C++ unsigned value of [w] bits. *)
Definition wrap (w : Z) (x : Z) : Z := x mod 2 ^ w.

Section Constants.

(** [asin] of the math library is a parameter. *)
Variable c_asin : double -> double.

Definition Pi : double := 2 * c_asin 1.
Definition DegToRad : double := Pi / 180.
Definition RadToDeg : double := 180 / Pi.
Definition StradToDeg : double := 180 * 180 / (Pi * Pi).
Definition SurveyCenterRA : double := 185.
Definition SurveyCenterDEC : double := 325 # 10.
Definition EtaOffSet : double := 9125 # 100.
Definition Node : double := DegToRad * (SurveyCenterRA - 90).
Definition EtaPole : double := DegToRad * SurveyCenterDEC.

End Constants.

Definition Nx0 : Z := wrap 32 36.
Definition Ny0 : Z := wrap 32 13.
Definition HPixLevel : Z := wrap 8 2.
Definition MaxPixelLevel : Z := wrap 8 15.
Definition HPixResolution : Z := wrap 16 (Z.shiftl 1 HPixLevel).
Definition MaxPixelResolution : Z := wrap 16 (Z.shiftl 1 MaxPixelLevel).
Definition ResolutionLevels : Z := wrap 8 (MaxPixelLevel - HPixLevel + 1).
Definition MaxPixnum : Z :=
  wrap 32 (wrap 32 (wrap 32 (Nx0 * Ny0) * 2048) * 2048).
Definition MaxSuperpixnum : Z :=
  wrap 32 (wrap 32 (wrap 32 (Nx0 * Ny0) * HPixResolution) * HPixResolution).

(** [HPixArea]; the product in the denominator is computed on 32-bit
    unsigned integers, from left to right. *)
Definition HPixArea (c_asin : double -> double) : double :=
  4 * Pi c_asin * StradToDeg c_asin
  / inject_Z (wrap 32 (wrap 32 (HPixResolution * HPixResolution) * Nx0) * Ny0).

(** The tolerance [1.0e-10] of the comparisons. *)
Definition tolerance : double := 1 # 10000000000.

(** [DoubleLT] *)
Definition DoubleLT (a b : double) : bool :=
  if dlt a (b - tolerance) then true else false.

(** [DoubleLE] *)
Definition DoubleLE (a b : double) : bool :=
  if dle a (b + tolerance) then true else false.

(** [DoubleGT] *)
Definition DoubleGT (a b : double) : bool :=
  if dgt a (b + tolerance) then true else false.

(** [DoubleGE] *)
Definition DoubleGE (a b : double) : bool :=
  if dge a (b - tolerance) then true else false.

(** [DoubleEQ] *)
Definition DoubleEQ (a b : double) : bool :=
  if DoubleLE a b && DoubleGE a b then true else false.

(** The loop [while (input_int >>= 1) ln_int++;] of [MostSignificantBit],
    on a 32-bit [input_int] and an 8-bit [ln_int]; [None] when the fuel
    runs out before the loop ends. *)
Fixpoint MostSignificantBit_loop (fuel : nat) (input_int ln_int : Z)
    : option Z :=
  match fuel with
  | O => None
  | S fuel' =>
      let input_int := wrap 32 (Z.shiftr input_int 1) in
      if (input_int =? 0)%Z then Some ln_int
      else MostSignificantBit_loop fuel' input_int (wrap 8 (ln_int + 1))
  end.

(** [MostSignificantBit] *)
Definition MostSignificantBit (fuel : nat) (input_int : Z) : option Z :=
  let ln_int := wrap 8 0 in
  MostSignificantBit_loop fuel (wrap 32 input_int) ln_int.

End Stomp.

(** ** Basic facts about the comparisons *)

(** A closed comparison of rationals, settled by evaluating it. *)
Ltac by_computation :=
  vm_compute; first [reflexivity | intro; discriminate].

Lemma bool_eq_iff (x y : bool) : (x = true <-> y = true) -> x = y.
Proof. destruct x, y; intuition congruence. Qed.

Lemma dle_spec (a b : double) : dle a b = true <-> a <= b.
Proof. unfold dle. apply Qle_bool_iff. Qed.

Lemma dlt_spec (a b : double) : dlt a b = true <-> a < b.
Proof. unfold dlt, Qlt. apply Z.ltb_lt. Qed.

Lemma dlt_false (a b : double) : dlt a b = false <-> b <= a.
Proof.
  unfold dlt, Qle. rewrite Z.ltb_ge. reflexivity.
Qed.

Lemma dle_false (a b : double) : dle a b = false <-> b < a.
Proof.
  split; intro H.
  - destruct (Qlt_le_dec b a) as [Hlt | Hle]; [exact Hlt |].
    apply dle_spec in Hle. congruence.
  - destruct (dle a b) eqn:E; [| reflexivity].
    apply dle_spec in E. lra.
Qed.

Lemma dge_spec (a b : double) : dge a b = true <-> b <= a.
Proof. unfold dge. apply dle_spec. Qed.

Lemma dgt_spec (a b : double) : dgt a b = true <-> b < a.
Proof. unfold dgt. apply dlt_spec. Qed.

(** ** Point containment *)

(** C5: [contains(p)] holds exactly when [1 - axis.p <= height], the boundary
    included; for axis (0,0,1) and height 1 the point (0,0,1) is contained,
    (0,0,-1) is not, and the boundary point (1,0,0) is. *)
Theorem contains_point_iff :
  (forall (b : circle_bound) (p : point),
      contains b p = true <-> 1 - dot (axis_ b) p <= height_ b)
  /\ contains (from_height north 1) north = true
  /\ contains (from_height north 1) south = false
  /\ contains (from_height north 1) east = true
  /\ 1 - dot north east == 1.
Proof.
  split; [| repeat split].
  intros b p. unfold contains. cbv zeta. apply dge_spec.
Qed.

(** ** Emptiness, area and complement *)

Lemma is_empty_true (b : circle_bound) : is_empty b = true <-> height_ b < 0.
Proof. unfold is_empty. apply dlt_spec. Qed.

Lemma is_empty_false (b : circle_bound) :
  is_empty b = false <-> 0 <= height_ b.
Proof. unfold is_empty. apply dlt_false. Qed.

Lemma complement_nonempty (b : circle_bound) :
  0 <= height_ b -> complement b = from_height (neg (axis_ b)) (2 - height_ b).
Proof.
  intro H. unfold complement.
  apply is_empty_false in H. rewrite H. reflexivity.
Qed.

Lemma complement_empty (b : circle_bound) :
  height_ b < 0 -> complement b = from_height (neg (axis_ b)) 2.
Proof.
  intro H. unfold complement.
  apply is_empty_true in H. rewrite H. reflexivity.
Qed.



(** C6: [complement] returns the opposite axis with the height
    [2 - height], or 2 when the bound is empty; the area of a non-empty
    bound is [2 * PI * height]; and for a bound of height in [0, 2] the
    area of the bound and the area of its complement add up to [4 * PI]. *)
Theorem area_complement (PI : double) (b : circle_bound) :
  axis_ (complement b) = neg (axis_ b)
  /\ (height_ b < 0 -> height_ (complement b) = 2)
  /\ (0 <= height_ b ->
      height_ (complement b) = 2 - height_ b
      /\ area PI b = 2 * PI * height_ b)
  /\ (0 <= height_ b -> height_ b <= 2 ->
      area PI b + area PI (complement b) == 4 * PI).
Proof.
  split; [unfold complement; destruct (is_empty b); reflexivity |].
  split; [intro H; rewrite (complement_empty b H); reflexivity |].
  assert (Harea : 0 <= height_ b -> area PI b = 2 * PI * height_ b).
  { intro H. unfold area. apply is_empty_false in H. rewrite H. reflexivity. }
  split.
  - intro H. rewrite (complement_nonempty b H).
    split; [reflexivity | exact (Harea H)].
  - intros Hlo Hhi. rewrite (Harea Hlo).
    rewrite (complement_nonempty b Hlo). unfold area.
    assert (E : is_empty (from_height (neg (axis_ b)) (2 - height_ b)) = false).
    { apply is_empty_false. simpl. lra. }
    rewrite E. simpl. ring.
Qed.

Lemma area_complement_witness :
  height_ (complement (circle_bound_default north)) = 2
  /\ height_ (complement polar_cap) = 2 - height_ polar_cap
  /\ area (355 # 113) polar_cap = 2 * (355 # 113) * height_ polar_cap
  /\ area (355 # 113) polar_cap + area (355 # 113) (complement polar_cap)
     == 4 * (355 # 113).
Proof.
  split; [| split; [| split]].
  - destruct (area_complement (355 # 113) (circle_bound_default north))
      as [_ [H _]].
    apply H. by_computation.
  - destruct (area_complement (355 # 113) polar_cap) as [_ [_ [H _]]].
    apply H. by_computation.
  - destruct (area_complement (355 # 113) polar_cap) as [_ [_ [H _]]].
    apply H. by_computation.
  - destruct (area_complement (355 # 113) polar_cap) as [_ [_ [_ H]]].
    apply H; by_computation.
Defined.



(** ** Reading a vector *)

Lemma vec_at_in_range {A : Type} (v : list A) (k : Z) :
  (0 <= k < Z.of_nat (length v))%Z -> exists a, vec_at v k = Some a.
Proof.
  intros [Hlo Hhi]. unfold vec_at.
  destruct (k <? 0)%Z eqn:E; [apply Z.ltb_lt in E; lia |].
  destruct (nth_error v (Z.to_nat k)) as [a |] eqn:En; [eauto |].
  apply nth_error_None in En. lia.
Qed.

Lemma vec_back_app {A : Type} (v : list A) (x : A) :
  vec_back (v ++ [x]) = Some x.
Proof. unfold vec_back. rewrite rev_app_distr. reflexivity. Qed.

Lemma land3_mod4 (k : Z) : Z.land (k + 1) 3 = ((k + 1) mod 4)%Z.
Proof. change 3%Z with (Z.ones 2). rewrite Z.land_ones by lia. reflexivity. Qed.

(** ** The scalar product of two points of the unit ball *)

Lemma Qsquare_nonneg (q : Q) : 0 <= q * q.
Proof.
  destruct q as [n d]. unfold Qle, Qmult. simpl.
  rewrite Z.mul_1_r. apply Z.square_nonneg.
Qed.

Lemma dot_le_1 (a p : point) :
  dot a a <= 1 -> dot p p <= 1 -> dot a p <= 1.
Proof.
  unfold dot. destruct a as [ax ay az aw], p as [qx qy qz qw]. simpl.
  intros Ha Hp.
  pose proof (Qsquare_nonneg (ax - qx)) as Hx.
  pose proof (Qsquare_nonneg (ay - qy)) as Hy.
  pose proof (Qsquare_nonneg (az - qz)) as Hz.
  lra.
Qed.

Lemma empty_contains_nothing (b : circle_bound) (p : point) :
  height_ b < 0 -> dot (axis_ b) (axis_ b) <= 1 -> dot p p <= 1 ->
  contains b p = false.
Proof.
  intros Hh Ha Hp. unfold contains, dge. cbv zeta.
  apply dle_false.
  pose proof (dot_le_1 (axis_ b) p Ha Hp). lra.
Qed.

(** The bound on the axis is needed: an empty bound with an axis of length
    10 contains the unit point (1, 0, 0). *)
Lemma empty_contains_needs_axis_in_ball :
  contains (mk_circle_bound (mk_point 10 0 0 1) (-1)) east = true.
Proof. reflexivity. Qed.

(** ** The shortcuts of [intersects] *)

Lemma intersects_large (b : circle_bound) (pix : pixel) (vs : list point) :
  1 <= height_ b -> intersects b pix vs = Some false.
Proof.
  intro H. unfold intersects.
  apply dge_spec in H. rewrite H. reflexivity.
Qed.

Lemma intersects_empty (b : circle_bound) (pix : pixel) (vs : list point) :
  height_ b < 0 -> intersects b pix vs = Some false.
Proof.
  intro H. unfold intersects.
  destruct (dge (height_ b) 1); [reflexivity |].
  apply is_empty_true in H. rewrite H. reflexivity.
Qed.

Lemma intersects_small (b : circle_bound) (pix : pixel) (vs : list point) :
  0 <= height_ b -> height_ b < 1 ->
  intersects b pix vs =
  if pixel_contains pix (axis_ b) then Some true
  else intersects_edges b pix vs (height_ b * (2 - height_ b)) [0; 1; 2; 3]%Z.
Proof.
  intros Hlo Hhi. unfold intersects.
  assert (E1 : dge (height_ b) 1 = false) by (apply dle_false; exact Hhi).
  assert (E2 : is_empty b = false) by (apply is_empty_false; exact Hlo).
  rewrite E1, E2. reflexivity.
Qed.

(** C7: [intersects] tries its shortcuts in this order: a height of 1 or
    more answers false (whatever the pixel contains); otherwise an empty
    bound answers false; otherwise a pixel that contains the axis answers
    true; only then are the four edges tested. *)
Theorem intersects_shortcuts (b : circle_bound) (pix : pixel)
    (vs : list point) :
  (1 <= height_ b -> intersects b pix vs = Some false)
  /\ (height_ b < 1 -> height_ b < 0 -> intersects b pix vs = Some false)
  /\ (height_ b < 1 -> 0 <= height_ b ->
      pixel_contains pix (axis_ b) = true ->
      intersects b pix vs = Some true)
  /\ (height_ b < 1 -> 0 <= height_ b ->
      pixel_contains pix (axis_ b) = false ->
      intersects b pix vs =
      intersects_edges b pix vs (height_ b * (2 - height_ b))
        [0; 1; 2; 3]%Z).
Proof.
  split; [apply intersects_large |].
  split; [intros _; apply intersects_empty |].
  split; intros Hhi Hlo Hc; rewrite (intersects_small b pix vs Hlo Hhi), Hc;
    reflexivity.
Qed.

Lemma intersects_shortcuts_witness :
  intersects (from_height quad_inner 1) (quad quad_v0) [] = Some false
  /\ intersects (from_height quad_inner (-1)) (quad quad_v0) [] = Some false
  /\ intersects (from_height quad_inner (1 # 2)) (quad quad_v0) [] = Some true
  /\ intersects polar_cap (quad quad_v0) (vertices_of (quad quad_v0)) =
     intersects_edges polar_cap (quad quad_v0) (vertices_of (quad quad_v0))
       (height_ polar_cap * (2 - height_ polar_cap)) [0; 1; 2; 3]%Z.
Proof.
  split; [| split; [| split]].
  - destruct (intersects_shortcuts (from_height quad_inner 1)
                (quad quad_v0) []) as [H _].
    apply H. by_computation.
  - destruct (intersects_shortcuts (from_height quad_inner (-1))
                (quad quad_v0) []) as [_ [H _]].
    apply H; by_computation.
  - destruct (intersects_shortcuts (from_height quad_inner (1 # 2))
                (quad quad_v0) []) as [_ [_ [H _]]].
    apply H; by_computation.
  - destruct (intersects_shortcuts polar_cap (quad quad_v0)
                (vertices_of (quad quad_v0))) as [_ [_ [_ H]]].
    apply H; by_computation.
Defined.

(** ** The search over the four edges *)

Section EdgeSearch.

Variable b : circle_bound.
Variable pix : pixel.
Variable vs : list point.
Hypothesis four_vertices : length vs = 4%nat.

Local Abbreviation sin2 := (height_ b * (2 - height_ b)).

Lemma confirms_not_rejects (k : Z) :
  edge_confirms b pix vs k -> ~ edge_rejects b pix k.
Proof.
  intros [_ [Hle _]] [_ Hgt]. lra.
Qed.

(** One turn of the loop: the edge confirms and the loop returns true, or
    it rejects and the loop returns false, or the loop goes on. *)
Lemma edge_step (k : Z) (rest : list Z) :
  (0 <= k < 4)%Z ->
  (edge_confirms b pix vs k
   /\ intersects_edges b pix vs sin2 (k :: rest) = Some true)
  \/ (edge_rejects b pix k
      /\ intersects_edges b pix vs sin2 (k :: rest) = Some false)
  \/ (~ edge_confirms b pix vs k /\ ~ edge_rejects b pix k
      /\ intersects_edges b pix vs sin2 (k :: rest) =
         intersects_edges b pix vs sin2 rest).
Proof.
  intro Hk. simpl.
  fold (edge_dot b pix k).
  destruct (dgt (edge_dot b pix k) 0) eqn:E1.
  { apply dgt_spec in E1. right; right.
    split; [intros [H _]; lra | split; [intros [H _]; lra | reflexivity]]. }
  apply dlt_false in E1.
  destruct (dgt (edge_dot b pix k * edge_dot b pix k) sin2) eqn:E2.
  { apply dgt_spec in E2. right; left. split; [split; assumption | reflexivity]. }
  apply dlt_false in E2.
  destruct (vec_at_in_range vs k) as [vk Hvk]; [rewrite four_vertices; lia |].
  destruct (vec_at_in_range vs ((k + 1) mod 4)) as [vk1 Hvk1].
  { rewrite four_vertices.
    pose proof (Z.mod_pos_bound (k + 1) 4). lia. }
  rewrite Hvk. simpl.
  destruct (dlt (dot (cross (edge pix k) (axis_ b)) vk) 0) eqn:E3.
  - apply dlt_spec in E3.
    rewrite land3_mod4, Hvk1. simpl.
    destruct (dgt (dot (cross (edge pix k) (axis_ b)) vk1) 0) eqn:E4.
    + apply dgt_spec in E4. left.
      split; [| reflexivity].
      split; [exact E1 | split; [exact E2 |]].
      exists vk, vk1. repeat split; assumption.
    + apply dlt_false in E4. right; right.
      split; [| split; [intros [_ H]; lra | reflexivity]].
      intros [_ [_ [wk [wk1 [Hw [Hw1 [_ Hpos]]]]]]].
      rewrite Hvk1 in Hw1. injection Hw1 as <-. lra.
  - apply dlt_false in E3. right; right.
    split; [| split; [intros [_ H]; lra | reflexivity]].
    intros [_ [_ [wk [wk1 [Hw [_ [Hneg _]]]]]]].
    rewrite Hvk in Hw. injection Hw as <-. lra.
Qed.

Lemma intersects_edges_total (ks : list Z) :
  Forall (fun k => (0 <= k < 4)%Z) ks ->
  exists r, intersects_edges b pix vs sin2 ks = Some r.
Proof.
  induction 1 as [| k rest Hk _ IH].
  - exists false. reflexivity.
  - destruct (edge_step k rest Hk) as [[_ E] | [[_ E] | [_ [_ E]]]];
      rewrite E; eauto.
Qed.

(** The loop returns true exactly when an edge confirms a crossing before
    any edge rejects. *)
Lemma intersects_edges_true (ks : list Z) :
  Forall (fun k => (0 <= k < 4)%Z) ks ->
  intersects_edges b pix vs sin2 ks = Some true <->
  exists pre k post,
    ks = pre ++ k :: post
    /\ edge_confirms b pix vs k
    /\ Forall (fun j => ~ edge_rejects b pix j) pre.
Proof.
  induction 1 as [| k rest Hk _ IH].
  - split; [discriminate |].
    intros [pre [k [post [E _]]]]. destruct pre; discriminate.
  - destruct (edge_step k rest Hk) as [[Hc E] | [[Hr E] | [Hnc [Hnr E]]]];
      rewrite E.
    + split; [intros _ | reflexivity].
      exists [], k, rest.
      split; [reflexivity | split; [exact Hc | constructor]].
    + split; [discriminate |].
      intros [pre [j [post [Eq [Hc Hpre]]]]].
      destruct pre as [| j0 pre]; simpl in Eq; injection Eq as -> ->.
      * exfalso. exact (confirms_not_rejects _ Hc Hr).
      * inversion Hpre; subst. contradiction.
    + rewrite IH. split.
      * intros [pre [j [post [Eq [Hc Hpre]]]]].
        exists (k :: pre), j, post. subst rest.
        split; [reflexivity | split; [exact Hc | constructor; assumption]].
      * intros [pre [j [post [Eq [Hc Hpre]]]]].
        destruct pre as [| j0 pre]; simpl in Eq; injection Eq as -> ->.
        -- contradiction.
        -- exists pre, j, post. inversion Hpre; subst.
           split; [reflexivity | split; assumption].
Qed.

End EdgeSearch.

Lemma indices_before (pre post : list Z) (k : Z) :
  [0; 1; 2; 3]%Z = pre ++ k :: post ->
  (0 <= k < 4)%Z /\ forall j, (0 <= j < k)%Z -> In j pre.
Proof.
  intro E.
  destruct pre as [| p0 [| p1 [| p2 [| p3 [| p4 pre]]]]]; simpl in E;
    try discriminate; inversion E; subst;
    (split; [lia | intros j Hj; simpl; lia]).
Qed.

Lemma indices_upto (k : Z) :
  (0 <= k < 4)%Z ->
  exists pre post,
    [0; 1; 2; 3]%Z = pre ++ k :: post
    /\ forall j, In j pre -> (0 <= j < k)%Z.
Proof.
  intro Hk.
  assert (Hc : k = 0%Z \/ k = 1%Z \/ k = 2%Z \/ k = 3%Z) by lia.
  destruct Hc as [-> | [-> | [-> | ->]]].
  - exists [], [1; 2; 3]%Z. split; [reflexivity | intros j []].
  - exists [0]%Z, [2; 3]%Z. split; [reflexivity | simpl; intros j H; lia].
  - exists [0; 1]%Z, [3]%Z. split; [reflexivity | simpl; intros j H; lia].
  - exists [0; 1; 2]%Z, []. split; [reflexivity | simpl; intros j H; lia].
Qed.

Lemma indices_in_range : Forall (fun k => (0 <= k < 4)%Z) [0; 1; 2; 3]%Z.
Proof. repeat constructor; lia. Qed.

(** The search on any value of the pixel interface, convex cell or not:
    for a non-empty bound of height below 1 whose axis the pixel does not
    contain, [intersects] returns a boolean; it returns true exactly when
    some edge [k] confirms a crossing and no edge before [k] has [dot <= 0]
    and [dot^2 > height * (2 - height)]; an edge with [dot <= 0] and
    [dot^2 > height * (2 - height)] that no confirming edge precedes makes
    it return false without a look at the later edges. *)
Theorem intersects_edge_search (b : circle_bound) (pix : pixel)
    (vs : list point) :
  length vs = 4%nat ->
  0 <= height_ b -> height_ b < 1 ->
  pixel_contains pix (axis_ b) = false ->
  (exists r, intersects b pix vs = Some r)
  /\ (intersects b pix vs = Some true <->
      exists k, (0 <= k < 4)%Z
        /\ edge_confirms b pix vs k
        /\ forall j, (0 <= j < k)%Z -> ~ edge_rejects b pix j)
  /\ (forall k, (0 <= k < 4)%Z ->
        edge_rejects b pix k ->
        (forall j, (0 <= j < k)%Z -> ~ edge_confirms b pix vs j) ->
        intersects b pix vs = Some false).
Proof.
  intros Hlen Hlo Hhi Hax.
  rewrite (intersects_small b pix vs Hlo Hhi), Hax.
  assert (Hiff :
    intersects_edges b pix vs (height_ b * (2 - height_ b)) [0; 1; 2; 3]%Z
      = Some true <->
    exists k, (0 <= k < 4)%Z
      /\ edge_confirms b pix vs k
      /\ forall j, (0 <= j < k)%Z -> ~ edge_rejects b pix j).
  { rewrite (intersects_edges_true b pix vs Hlen _ indices_in_range). split.
    - intros [pre [k [post [E [Hc Hpre]]]]].
      destruct (indices_before pre post k E) as [Hk Hin].
      exists k. split; [exact Hk | split; [exact Hc |]].
      intros j Hj. rewrite Forall_forall in Hpre. apply Hpre, Hin, Hj.
    - intros [k [Hk [Hc Hbefore]]].
      destruct (indices_upto k Hk) as [pre [post [E Hin]]].
      exists pre, k, post. split; [exact E | split; [exact Hc |]].
      apply Forall_forall. intros j Hj. apply Hbefore, Hin, Hj. }
  split; [apply (intersects_edges_total b pix vs Hlen _ indices_in_range) |].
  split; [exact Hiff |].
  intros k Hk Hr Hnone.
  destruct (intersects_edges_total b pix vs Hlen _ indices_in_range)
    as [[|] Er]; [| exact Er].
  exfalso. apply Hiff in Er. destruct Er as [k' [Hk' [Hc Hbefore]]].
  destruct (Z.lt_trichotomy k' k) as [Hlt | [Heq | Hgt]].
  - apply (Hnone k'); [lia | exact Hc].
  - subst k'. exact (confirms_not_rejects b pix vs k Hc Hr).
  - apply (Hbefore k); [lia | exact Hr].
Qed.

(** Why the edge directions have to be unit vectors: on [side_cap] and
    [quad_long_edge], whose [edge(1)] has length 2, edge 0 is skipped
    ([dot > 0]), edge 1 has [dot <= 0] and
    [dot^2 > height * (2 - height)], edge 2 would confirm a crossing, and
    [intersects] returns false. *)
Lemma intersects_rejecting_edge_not_skipped :
  (0 <= height_ side_cap /\ height_ side_cap < 1)
  /\ is_unit (axis_ side_cap)
  /\ pixel_contains quad_long_edge (axis_ side_cap) = false
  /\ 0 < edge_dot side_cap quad_long_edge 0
  /\ edge_rejects side_cap quad_long_edge 1
  /\ edge_confirms side_cap quad_long_edge (vertices_of quad_long_edge) 2
  /\ intersects side_cap quad_long_edge (vertices_of quad_long_edge)
     = Some false.
Proof.
  split; [split; by_computation |].
  split; [by_computation |].
  split; [reflexivity |].
  split; [by_computation |].
  split; [split; by_computation |].
  split; [| reflexivity].
  split; [by_computation | split; [by_computation |]].
  exists quad_v2, quad_v3.
  split; [reflexivity | split; [reflexivity | split; by_computation]].
Qed.

(** With the unit normal for edge 1 the same cap is found to cross
    edge 2. *)
Lemma intersects_side_cap_unit_edges :
  intersects side_cap (quad quad_v0) (vertices_of (quad quad_v0)) = Some true.
Proof. reflexivity. Qed.

Lemma intersects_edge_search_witness :
  intersects polar_cap (quad quad_v0) (vertices_of (quad quad_v0)) = Some true
  <-> exists k, (0 <= k < 4)%Z
        /\ edge_confirms polar_cap (quad quad_v0) (vertices_of (quad quad_v0)) k
        /\ forall j, (0 <= j < k)%Z -> ~ edge_rejects polar_cap (quad quad_v0) j.
Proof.
  refine (proj1 (proj2 (intersects_edge_search polar_cap (quad quad_v0)
                          (vertices_of (quad quad_v0)) _ _ _ _)));
    [reflexivity | by_computation | by_computation | reflexivity].
Defined.

(** ** Convex cells *)

Lemma four_cases (k : Z) :
  (0 <= k < 4)%Z -> k = 0%Z \/ k = 1%Z \/ k = 2%Z \/ k = 3%Z.
Proof. lia. Qed.

(** The example quadrilateral is a convex cell, and [quad_inner] is strictly
    inside its four edges. *)
Lemma quad_is_convex_cell :
  convex_cell (quad quad_v0)
  /\ (0 < dot quad_e0 quad_inner /\ 0 < dot quad_e1 quad_inner
      /\ 0 < dot quad_e2 quad_inner /\ 0 < dot quad_e3 quad_inner).
Proof.
  split; [| repeat split; by_computation].
  intros k Hk.
  destruct (four_cases k Hk) as [-> | [-> | [-> | ->]]];
    (split; [by_computation |]); (split; [by_computation |]);
    (split; [by_computation |]); (split; [by_computation |]);
    intros j Hj;
    destruct (four_cases j Hj) as [-> | [-> | [-> | ->]]]; by_computation.
Qed.

(** With its edge vector of length 2, [quad_long_edge] is the same cell but
    not a [convex_cell] in the sense above. *)
Lemma quad_long_edge_not_unit :
  dot (edge quad_long_edge 1) (edge quad_long_edge 1) == 4.
Proof. by_computation. Qed.

Lemma cramer (a e u w f : point) :
  det3 e u w * dot a f ==
  det3 a u w * dot f e + dot (cross e a) w * dot f u
  - dot (cross e a) u * dot f w.
Proof. unfold det3, dot, cross. simpl. ring. Qed.

Lemma det_in_plane (a e u w : point) :
  det3 a u w * dot e e ==
  dot a e * det3 e u w + dot e u * det3 e w a + dot e w * det3 e a u.
Proof. unfold det3, dot, cross. simpl. ring. Qed.

Lemma lagrange (e f : point) :
  dot e e * dot f f - dot f e * dot f e == dot (cross e f) (cross e f).
Proof. unfold dot, cross. simpl. ring. Qed.

Lemma dot_self_nonneg (a : point) : 0 <= dot a a.
Proof.
  unfold dot.
  pose proof (Qsquare_nonneg (px a)). pose proof (Qsquare_nonneg (py a)).
  pose proof (Qsquare_nonneg (pz a)). lra.
Qed.

(** The geometry behind the early return.  Let the closest approach of the
    great circle of an edge (unit normal [e], vertices [u] then [w]) to the
    axis [a] fall between [u] and [w], with [a] outside that edge.  For any
    other unit normal [f] that has [u] and [w] on its inner side and [a]
    outside, [a] is at least as close to the great circle of [f]. *)
Lemma closer_edge (a e f u w : point) :
  dot e e == 1 -> dot f f == 1 ->
  dot e u == 0 -> dot e w == 0 ->
  0 < det3 e u w ->
  0 <= dot f u -> 0 <= dot f w ->
  dot a e <= 0 ->
  dot (cross e a) u < 0 -> 0 < dot (cross e a) w ->
  dot a f <= 0 ->
  dot a f * dot a f <= dot a e * dot a e.
Proof.
  intros He Hf Hu Hw HD Hfu Hfw Hd Hneg Hpos Hg.
  pose proof (cramer a e u w f) as C.
  pose proof (det_in_plane a e u w) as P.
  pose proof (lagrange e f) as L.
  pose proof (dot_self_nonneg (cross e f)) as Lpos.
  rewrite He, Hu, Hw in P.
  assert (M : det3 a u w == dot a e * det3 e u w) by lra.
  rewrite M in C.
  rewrite He, Hf in L.
  set (D := det3 e u w) in *. set (g := dot a f) in *. set (d := dot a e) in *.
  set (c := dot f e) in *.
  set (p1 := dot (cross e a) w) in *. set (p2 := dot (cross e a) u) in *.
  set (q1 := dot f u) in *. set (q2 := dot f w) in *.
  assert (Hc : c * c <= 1) by lra.
  assert (Hprod : 0 <= p1 * q1 - p2 * q2) by nra.
  assert (Hge : 0 <= D * (g - d * c)) by lra.
  assert (Hgdc : d * c <= g) by nra.
  assert (Hc1 : c <= 1) by nra.
  nra.
Qed.

Lemma vec_at_vertices_of (pix : pixel) (k : Z) :
  (0 <= k < 4)%Z -> vec_at (vertices_of pix) k = Some (vertex pix k).
Proof.
  intro Hk. destruct (four_cases k Hk) as [-> | [-> | [-> | ->]]]; reflexivity.
Qed.

(** On a convex cell an edge that confirms a crossing excludes that any edge
    rejects. *)
Lemma confirming_excludes_rejecting (b : circle_bound) (pix : pixel)
    (j k : Z) :
  convex_cell pix ->
  (0 <= j < 4)%Z -> (0 <= k < 4)%Z ->
  edge_confirms b pix (vertices_of pix) k ->
  ~ edge_rejects b pix j.
Proof.
  intros Hcell Hj Hk [Hd [Hd2 [vk [vk1 [Evk [Evk1 [Hneg Hpos]]]]]]] [Hg Hg2].
  rewrite (vec_at_vertices_of pix k Hk) in Evk. injection Evk as <-.
  rewrite (vec_at_vertices_of pix ((k + 1) mod 4)) in Evk1
    by (apply Z.mod_pos_bound; lia).
  injection Evk1 as <-.
  destruct (Hcell k Hk) as [He [Hu [Hw [HD Hin]]]].
  destruct (Hcell j Hj) as [Hf _].
  destruct (Hcell ((k + 1) mod 4)%Z) as [_ [_ [_ [_ Hin1]]]];
    [apply Z.mod_pos_bound; lia |].
  pose proof (closer_edge (axis_ b) (edge pix k) (edge pix j)
                (vertex pix k) (vertex pix ((k + 1) mod 4))
                He Hf Hu Hw HD (Hin j Hj) (Hin1 j Hj) Hd Hneg Hpos Hg) as H.
  unfold edge_dot in *. lra.
Qed.

(** X21: on a convex cell with unit edge normals, tested with its own four
    vertices, the early return never changes the answer: [intersects]
    returns true exactly when some edge confirms a crossing. *)
Lemma intersects_on_convex_cell (b : circle_bound) (pix : pixel) :
  convex_cell pix ->
  0 <= height_ b -> height_ b < 1 ->
  pixel_contains pix (axis_ b) = false ->
  (intersects b pix (vertices_of pix) = Some true <->
   exists k, (0 <= k < 4)%Z /\ edge_confirms b pix (vertices_of pix) k).
Proof.
  intros Hcell Hlo Hhi Hax.
  rewrite (intersects_small b pix _ Hlo Hhi), Hax.
  rewrite (intersects_edges_true b pix (vertices_of pix) eq_refl _
             indices_in_range).
  split.
  - intros [pre [k [post [E [Hc _]]]]].
    exists k. split; [apply (indices_before pre post k E) | exact Hc].
  - intros [k [Hk Hc]].
    destruct (indices_upto k Hk) as [pre [post [E Hin]]].
    exists pre, k, post. split; [exact E | split; [exact Hc |]].
    apply Forall_forall. intros j Hj.
    apply (confirming_excludes_rejecting b pix j k Hcell); [| exact Hk | exact Hc].
    specialize (Hin j Hj). lia.
Qed.

(** ** The early return against the loop of the specification *)






(** ** What [may_intersect] reads *)

Lemma vec_at_same (v w : point) (i : Z) :
  vec_at [v; v; v; v] i = Some w -> w = v.
Proof.
  unfold vec_at. destruct (i <? 0)%Z; [discriminate |].
  destruct (Z.to_nat i) as [| [| [| [| n]]]]; simpl;
    try (intro H; injection H as <-; reflexivity).
  destruct n; discriminate.
Qed.

(** Four copies of one point never confirm a crossing: the two strict tests
    of an edge cannot hold of the same point. *)
Lemma same_vertex_never_confirms (b : circle_bound) (pix : pixel)
    (v : point) (k : Z) :
  ~ edge_confirms b pix [v; v; v; v] k.
Proof.
  intros [_ [_ [vk [vk1 [Hk [Hk1 [Hneg Hpos]]]]]]].
  apply vec_at_same in Hk, Hk1. subst. lra.
Qed.

Lemma intersects_same_vertex (b : circle_bound) (pix : pixel) (v : point) :
  intersects b pix [v; v; v; v] =
  Some (negb (dge (height_ b) 1) && negb (is_empty b)
        && pixel_contains pix (axis_ b)).
Proof.
  destruct (dge (height_ b) 1) eqn:E1.
  { apply dge_spec in E1. rewrite (intersects_large b pix _ E1). reflexivity. }
  destruct (is_empty b) eqn:E2.
  { apply is_empty_true in E2. rewrite (intersects_empty b pix _ E2).
    reflexivity. }
  apply dle_false in E1. apply is_empty_false in E2.
  rewrite (intersects_small b pix _ E2 E1).
  destruct (pixel_contains pix (axis_ b)); [reflexivity |]. simpl.
  destruct (intersects_edges_total b pix [v; v; v; v] eq_refl _
              indices_in_range) as [[|] Er]; [| exact Er].
  apply (intersects_edges_true b pix [v; v; v; v] eq_refl _ indices_in_range)
    in Er.
  destruct Er as [pre [k [post [_ [Hc _]]]]].
  exfalso. exact (same_vertex_never_confirms b pix v k Hc).
Qed.

(** [may_intersect] reads [vertex(4)] and nothing else of the vertices. *)
Lemma may_intersect_reads_vertex_4 (b : circle_bound) (pix : pixel) :
  may_intersect b pix =
  if contains b (vertex pix 4) then Some true
  else intersects b pix
         [vertex pix 4; vertex pix 4; vertex pix 4; vertex pix 4].
Proof.
  unfold may_intersect. simpl. unfold vec_back. simpl.
  destruct (contains b (vertex pix 4)); reflexivity.
Qed.

Lemma may_intersect_value (b : circle_bound) (pix : pixel) :
  may_intersect b pix =
  Some (contains b (vertex pix 4)
        || (negb (dge (height_ b) 1) && negb (is_empty b)
            && pixel_contains pix (axis_ b))).
Proof.
  rewrite may_intersect_reads_vertex_4.
  destruct (contains b (vertex pix 4)); [reflexivity |].
  apply intersects_same_vertex.
Qed.

Lemma contains_pixel_value (b : circle_bound) (pix : pixel) :
  exists c, contains_pixel b pix = Some c.
Proof.
  unfold contains_pixel.
  destruct (contains_loop b pix [0; 1; 2; 3]%Z); [| eauto].
  rewrite may_intersect_value. simpl. eauto.
Qed.

(** C1, where the code departs from it: vertex 1 of the quadrilateral lies
    in [corner_cap], so [may_intersect] should answer true; the code reads
    [vertex(4)] (here the same point as vertex 0) four times, never looks at
    vertex 1, and answers false. *)
Theorem may_intersect_overlooks_vertex :
  contains corner_cap (vertex (quad quad_v0) 1) = true
  /\ is_unit (axis_ corner_cap)
  /\ may_intersect corner_cap (quad quad_v0) = Some false.
Proof.
  split; [reflexivity | split; [by_computation | reflexivity]].
Qed.

(** Whatever [vertex(4)] answers, as long as that point is outside the cap,
    the code overlooks vertex 1. *)
Lemma overlooked_vertex_for_any_answer (out_of_range : point) :
  contains corner_cap out_of_range = false ->
  may_intersect corner_cap (quad out_of_range) = Some false.
Proof.
  intro H. rewrite may_intersect_value. simpl. rewrite H. reflexivity.
Qed.

(** ** Pixel containment and the complement *)

(** What the code does establish: when [contains(pixel)] answers true, the
    complement does not intersect the pixel on the vertex list that
    [may_intersect] builds, four copies of [vertex(4)]. *)
Lemma contains_pixel_excludes_fetched (b : circle_bound) (pix : pixel) :
  contains_pixel b pix = Some true ->
  intersects (complement b) pix
    [vertex pix 4; vertex pix 4; vertex pix 4; vertex pix 4] = Some false.
Proof.
  unfold contains_pixel.
  destruct (contains_loop b pix [0; 1; 2; 3]%Z); [| discriminate].
  rewrite may_intersect_reads_vertex_4.
  destruct (contains (complement b) (vertex pix 4)); [discriminate |].
  destruct (intersects (complement b) pix _) as [[|] |]; simpl;
    [discriminate | reflexivity | discriminate].
Qed.

(** C9, where the code departs from it: all four vertices of the
    quadrilateral lie in [southern_cap] and [contains(pixel)] answers true,
    yet the complement cap crosses edge 0 between vertices 0 and 1:
    [intersects] of the complement on the four vertices of the pixel answers
    true, and the point (4/5, 0, 3/5) of the pixel is outside the bound. *)
Theorem contains_pixel_misses_crossing :
  contains_pixel southern_cap (quad quad_v0) = Some true
  /\ intersects (complement southern_cap) (quad quad_v0)
       (vertices_of (quad quad_v0)) = Some true
  /\ pixel_contains (quad quad_v0) (mk_point (4 # 5) 0 (3 # 5) 1) = true
  /\ contains southern_cap (mk_point (4 # 5) 0 (3 # 5) 1) = false.
Proof.
  repeat split.
Qed.

(** Whatever [vertex(4)] answers, as long as that point is outside the
    complement cap, [contains(pixel)] answers true on the quadrilateral. *)
Lemma missed_crossing_for_any_answer (out_of_range : point) :
  contains (complement southern_cap) out_of_range = false ->
  contains_pixel southern_cap (quad out_of_range) = Some true.
Proof.
  intro H. unfold contains_pixel.
  change (contains_loop southern_cap (quad out_of_range) [0; 1; 2; 3]%Z)
    with true.
  cbv iota. rewrite may_intersect_value. simpl. rewrite H. reflexivity.
Qed.

(** ** The empty region *)

(** C4: on a bound of negative height (its axis in the unit ball: a unit
    axis or the zero axis of a default-constructed bound), every query
    returns without error: the area is 0, the size is 0, no unit point is
    contained, and [may_intersect] and [intersects] answer false for every
    pixel whose vertices are unit points. *)
Theorem empty_bound_queries (PI : double) (b : circle_bound) (p : point)
    (pix : pixel) (vs : list point) :
  height_ b < 0 ->
  dot (axis_ b) (axis_ b) <= 1 ->
  is_unit p ->
  (forall k, is_unit (vertex pix k)) ->
  is_empty b = true
  /\ area PI b = 0
  /\ size b = 0%Z
  /\ contains b p = false
  /\ may_intersect b pix = Some false
  /\ intersects b pix vs = Some false.
Proof.
  intros Hh Ha Hp Hv.
  assert (He : is_empty b = true) by (apply is_empty_true; exact Hh).
  split; [exact He |].
  split; [unfold area; rewrite He; reflexivity |].
  split; [unfold size; rewrite He; reflexivity |].
  split.
  { apply empty_contains_nothing; [exact Hh | exact Ha |].
    unfold is_unit in Hp. lra. }
  split; [| apply intersects_empty; exact Hh].
  rewrite may_intersect_value, He.
  rewrite (empty_contains_nothing b (vertex pix 4) Hh Ha).
  - rewrite andb_false_r. reflexivity.
  - specialize (Hv 4%Z). unfold is_unit in Hv. lra.
Qed.

Lemma empty_bound_queries_witness :
  is_empty (circle_bound_default (mk_point 0 0 0 0)) = true
  /\ area (355 # 113) (circle_bound_default (mk_point 0 0 0 0)) = 0
  /\ size (circle_bound_default (mk_point 0 0 0 0)) = 0%Z
  /\ contains (circle_bound_default (mk_point 0 0 0 0)) east = false
  /\ may_intersect (circle_bound_default (mk_point 0 0 0 0)) (quad quad_v0)
     = Some false
  /\ intersects (circle_bound_default (mk_point 0 0 0 0)) (quad quad_v0)
       (vertices_of (quad quad_v0)) = Some false.
Proof.
  apply (empty_bound_queries (355 # 113)
           (circle_bound_default (mk_point 0 0 0 0)) east (quad quad_v0)
           (vertices_of (quad quad_v0)));
    try by_computation.
  intro k.
  destruct k as [| [[[| |] | [| |] |] | [[| |] | [| |] |] |] |];
    by_computation.
Defined.

(** ** Recursive area integration *)

(** Induction over the pixel hierarchy. *)
Lemma pixel_tree_ind (P : pixel -> Prop) :
  (forall v e c a ch, Forall P ch -> P (mk_pixel v e c a ch)) ->
  forall pix, P pix.
Proof.
  intro H. fix IH 1. intros [v e c a ch]. apply H.
  induction ch as [| child rest IHrest]; constructor.
  - apply IH.
  - exact IHrest.
Qed.

Lemma sum_children (f : pixel -> option double) (ch : list pixel)
    (areas : list double) (start : double) :
  map f ch = map Some areas ->
  fold_left (add_area f) ch (Some start) = Some (fold_left Qplus areas start).
Proof.
  revert areas start.
  induction ch as [| child rest IH]; intros [| a areas] start E;
    try discriminate; [reflexivity |].
  simpl in E. injection E as Ea Erest.
  simpl. unfold add_area at 1. simpl. rewrite Ea. simpl.
  apply IH, Erest.
Qed.

Lemma contained_area_equation (b : circle_bound) (pix : pixel) :
  contained_area b pix =
  (c <- contains_pixel b pix ;;
   if c then Some (exact_area pix)
   else
     m <- may_intersect b pix ;;
     if m then fold_left (add_area (contained_area b)) (children pix) (Some 0)
     else Some 0).
Proof. destruct pix; reflexivity. Qed.

Lemma contained_area_total (b : circle_bound) (pix : pixel) :
  exists a, contained_area b pix = Some a.
Proof.
  induction pix as [v e c a ch IH] using pixel_tree_ind.
  rewrite contained_area_equation.
  destruct (contains_pixel_value b (mk_pixel v e c a ch)) as [cp ->].
  rewrite may_intersect_value. simpl.
  destruct cp; [eauto |].
  match goal with |- context [if ?m then _ else _] => destruct m end;
    [| eauto].
  assert (Hareas : exists areas, map (contained_area b) ch = map Some areas).
  { induction IH as [| child rest [x Hx] _ [areas Hareas]].
    - exists []. reflexivity.
    - exists (x :: areas). simpl. rewrite Hx, Hareas. reflexivity. }
  destruct Hareas as [areas Hareas].
  rewrite (sum_children _ _ _ _ Hareas). eauto.
Qed.

(** C8: [contained_area] returns for every bound and pixel; it returns
    [exact_area()] of the pixel when [contains(pixel)] holds; otherwise,
    when [may_intersect(pixel)] holds, the sum (from 0, in the order of the
    iteration) of what [contained_area] returns on the children; and
    otherwise 0. *)
Theorem contained_area_cases (b : circle_bound) (pix : pixel) :
  exists (c m : bool) (areas : list double),
    contains_pixel b pix = Some c
    /\ may_intersect b pix = Some m
    /\ map (contained_area b) (children pix) = map Some areas
    /\ contained_area b pix =
       Some (if c then exact_area pix
             else if m then fold_left Qplus areas 0
             else 0).
Proof.
  destruct (contains_pixel_value b pix) as [c Hc].
  assert (Hareas : exists areas,
             map (contained_area b) (children pix) = map Some areas).
  { induction (children pix) as [| child rest [areas Hareas]].
    - exists []. reflexivity.
    - destruct (contained_area_total b child) as [x Hx].
      exists (x :: areas). simpl. rewrite Hx, Hareas. reflexivity. }
  destruct Hareas as [areas Hareas].
  exists c, (contains b (vertex pix 4)
             || (negb (dge (height_ b) 1) && negb (is_empty b)
                 && pixel_contains pix (axis_ b))), areas.
  split; [exact Hc |].
  split; [apply may_intersect_value |].
  split; [exact Hareas |].
  rewrite contained_area_equation, Hc, may_intersect_value. simpl.
  destruct c; [reflexivity |].
  match goal with |- context [if ?m then _ else _] => destruct m end;
    [| reflexivity].
  apply sum_children, Hareas.
Qed.

(** ** Weighted sampling *)

Section WeightedSampling.

Variable rng : Type.
Variable mt_seed : rng -> rng.
Variable mt_rand : double -> rng -> double * rng.
Variable mt_randInt : Z -> rng -> Z * rng.
Variable PI : double.
Variables c_sin c_cos c_acos : double -> double.
Variable point_xyz : double -> double -> double -> point.
Variable rotate_about : point -> point -> double -> point.

Local Abbreviation batch_loop :=
  (get_weighted_random_points_loop rng mt_seed mt_rand mt_randInt PI
     c_sin c_cos c_acos point_xyz rotate_about).
Local Abbreviation batch :=
  (get_weighted_random_points rng mt_seed mt_rand mt_randInt PI
     c_sin c_cos c_acos point_xyz rotate_about).
Local Abbreviation single :=
  (get_weighted_random_point rng mt_seed mt_rand mt_randInt PI
     c_sin c_cos c_acos point_xyz rotate_about).

Lemma batch_loop_weights (b : circle_bound) (refs : list point) (n : nat) :
  forall (points : list point) (s : sampler rng),
    Forall index_weight points ->
    Forall index_weight (fst (batch_loop b n points refs s)).
Proof.
  induction n as [| n IH]; intros points s Hpoints; [exact Hpoints |].
  simpl.
  destruct (get_random_point _ _ _ _ _ _ _ _ _ b s) as [p s1].
  destruct (mt_randInt _ (mtrand s1)) as [i g].
  apply IH. apply Forall_app. split; [exact Hpoints |].
  constructor; [| constructor]. exists i. reflexivity.
Qed.

Lemma batch_loop_length (b : circle_bound) (refs : list point) (n : nat) :
  forall (points : list point) (s : sampler rng),
    length (fst (batch_loop b n points refs s)) = (length points + n)%nat.
Proof.
  induction n as [| n IH]; intros points s; [simpl; lia |].
  simpl.
  destruct (get_random_point _ _ _ _ _ _ _ _ _ b s) as [p s1].
  destruct (mt_randInt _ (mtrand s1)) as [i g].
  rewrite IH, length_app. simpl. lia.
Qed.

Lemma batch_starts_empty (b : circle_bound) (n : Z)
    (out refs : list point) (s : sampler rng) :
  batch b n out refs s = batch_loop b (Z.to_nat n) [] refs s.
Proof.
  unfold get_weighted_random_points.
  destruct out; reflexivity.
Qed.

Lemma index_is_not_five_halves (p : point) :
  index_weight p -> ~ weight p == 5 # 2.
Proof.
  intros [i ->]. unfold Qeq, inject_Z. simpl. lia.
Qed.

(** C3, where the code departs from it: with the one reference point of
    weight 5/2, for every generator, every state of it and every [n], the
    batch form returns [n] points whose weights are drawn indices, never
    the weight 5/2 of the reference point; the single form, whenever its
    read is in range, returns a point of weight 5/2. *)
Theorem weighted_batch_assigns_index (b : circle_bound) (n : Z)
    (out : list point) (s : sampler rng) :
  length (fst (batch b n out one_reference s)) = Z.to_nat n
  /\ Forall (fun p => index_weight p
                      /\ ~ exists r, In r one_reference
                                     /\ weight p == weight r)
       (fst (batch b n out one_reference s))
  /\ match single b one_reference s with
     | Some (p, _) => weight p = 5 # 2
     | None => True
     end.
Proof.
  rewrite batch_starts_empty.
  split; [apply batch_loop_length |].
  split.
  - pose proof (batch_loop_weights b one_reference (Z.to_nat n) [] s
                  (Forall_nil _)) as H.
    eapply Forall_impl; [| exact H].
    intros p Hp. split; [exact Hp |].
    intros [r [[<- | []] Hw]].
    exact (index_is_not_five_halves p Hp Hw).
  - unfold get_weighted_random_point.
    destruct (get_random_point _ _ _ _ _ _ _ _ _ b s) as [p s1].
    destruct (mt_randInt _ (mtrand s1)) as [i g].
    destruct (vec_at one_reference i) as [chosen |] eqn:E; simpl; [| exact I].
    unfold vec_at in E. destruct (i <? 0)%Z; [discriminate |].
    destruct (Z.to_nat i) as [| [| k]]; simpl in E;
      [injection E as <-; reflexivity | discriminate | discriminate].
Qed.

End WeightedSampling.

(** ** Further properties of the point and pixel tests *)

Lemma contains_iff (b : circle_bound) (p : point) :
  contains b p = true <-> 1 - dot (axis_ b) p <= height_ b.
Proof. unfold contains. cbv zeta. apply dge_spec. Qed.

Lemma contains_false_iff (b : circle_bound) (p : point) :
  contains b p = false <-> height_ b < 1 - dot (axis_ b) p.
Proof. unfold contains, dge. cbv zeta. apply dle_false. Qed.

Lemma dot_neg_l (a p : point) : dot (neg a) p == - dot a p.
Proof. unfold dot, neg. simpl. ring. Qed.

Lemma dot_ge_minus_1 (a p : point) :
  dot a a <= 1 -> dot p p <= 1 -> -1 <= dot a p.
Proof.
  unfold dot. destruct a as [ax ay az aw], p as [qx qy qz qw]. simpl.
  intros Ha Hp.
  pose proof (Qsquare_nonneg (ax + qx)) as Hx.
  pose proof (Qsquare_nonneg (ay + qy)) as Hy.
  pose proof (Qsquare_nonneg (az + qz)) as Hz.
  lra.
Qed.

Lemma square_zero (q : Q) : q * q == 0 -> q == 0.
Proof.
  intro H. destruct (Qmult_integral _ _ H); assumption.
Qed.

(** Two unit points whose scalar product is at least 1 are the same
    point. *)
Lemma unit_dot_one (a p : point) :
  is_unit a -> is_unit p -> 1 <= dot a p -> same_direction p a.
Proof.
  unfold is_unit, same_direction, dot.
  destruct a as [ax ay az aw], p as [qx qy qz qw]. simpl.
  intros Ha Hp H.
  pose proof (Qsquare_nonneg (qx - ax)) as Hx.
  pose proof (Qsquare_nonneg (qy - ay)) as Hy.
  pose proof (Qsquare_nonneg (qz - az)) as Hz.
  assert (Ex : (qx - ax) * (qx - ax) == 0) by lra.
  assert (Ey : (qy - ay) * (qy - ay) == 0) by lra.
  assert (Ez : (qz - az) * (qz - az) == 0) by lra.
  apply square_zero in Ex, Ey, Ez. repeat split; lra.
Qed.

Lemma same_direction_dot (a p : point) :
  is_unit a -> same_direction p a -> dot a p == 1.
Proof.
  unfold is_unit, same_direction, dot. intros Ha [Ex [Ey Ez]].
  rewrite Ex, Ey, Ez. exact Ha.
Qed.

Lemma contains_loop_true (b : circle_bound) (pix : pixel) (ks : list Z) :
  contains_loop b pix ks = true <->
  forall k, In k ks -> contains b (vertex pix k) = true.
Proof.
  induction ks as [| k rest IH]; simpl.
  - split; [intros _ k [] | reflexivity].
  - destruct (contains b (vertex pix k)) eqn:E; simpl.
    + rewrite IH. split.
      * intros H j [<- | Hj]; [exact E | apply H, Hj].
      * intros H j Hj. apply H. right. exact Hj.
    + split; [discriminate |].
      intro H. rewrite (H k (or_introl eq_refl)) in E. discriminate.
Qed.

(** X1: [contains(pixel)] answers true only when each of the four vertices
    [vertex(0)] .. [vertex(3)] passes the point test, and answers false as
    soon as one of them fails it. *)
Theorem contains_pixel_needs_all_vertices (b : circle_bound) (pix : pixel) :
  (contains_pixel b pix = Some true ->
   forall k, (0 <= k < 4)%Z ->
     1 - dot (axis_ b) (vertex pix k) <= height_ b)
  /\ (forall k, (0 <= k < 4)%Z ->
        height_ b < 1 - dot (axis_ b) (vertex pix k) ->
        contains_pixel b pix = Some false).
Proof.
  split.
  - unfold contains_pixel.
    destruct (contains_loop b pix [0; 1; 2; 3]%Z) eqn:E; [| discriminate].
    intros _ k Hk. apply contains_iff.
    apply (proj1 (contains_loop_true b pix _) E). simpl. lia.
  - intros k Hk Hout. unfold contains_pixel.
    destruct (contains_loop b pix [0; 1; 2; 3]%Z) eqn:E; [| reflexivity].
    apply contains_false_iff in Hout.
    rewrite (proj1 (contains_loop_true b pix _) E k) in Hout;
      [discriminate | simpl; lia].
Qed.

Lemma contains_pixel_needs_all_vertices_witness :
  (forall k, (0 <= k < 4)%Z ->
     1 - dot (axis_ southern_cap) (vertex (quad quad_v0) k)
     <= height_ southern_cap)
  /\ contains_pixel corner_cap (quad quad_v0) = Some false.
Proof.
  split.
  - apply (proj1 (contains_pixel_needs_all_vertices southern_cap
                    (quad quad_v0))).
    reflexivity.
  - apply (proj2 (contains_pixel_needs_all_vertices corner_cap
                    (quad quad_v0)) 0%Z); [lia | by_computation].
Defined.

(** X2: for a non-empty bound, a bound and its complement cover every
    point between them, and share exactly the points of the boundary
    [1 - axis.p == height]. *)
Theorem complement_splits_points (b : circle_bound) (p : point) :
  0 <= height_ b ->
  (contains b p = true \/ contains (complement b) p = true)
  /\ (contains b p = true /\ contains (complement b) p = true <->
      1 - dot (axis_ b) p == height_ b).
Proof.
  intro Hlo.
  rewrite (complement_nonempty b Hlo).
  rewrite !contains_iff. simpl.
  pose proof (dot_neg_l (axis_ b) p) as Hn.
  split.
  - destruct (Qlt_le_dec (height_ b) (1 - dot (axis_ b) p)) as [H | H].
    + right. lra.
    + left. exact H.
  - split; [intros [H1 H2]; lra | intro H; split; lra].
Qed.

Lemma complement_splits_points_witness :
  (contains polar_cap east = true
   \/ contains (complement polar_cap) east = true)
  /\ (contains polar_cap east = true
      /\ contains (complement polar_cap) east = true <->
      1 - dot (axis_ polar_cap) east == height_ polar_cap).
Proof.
  apply (complement_splits_points polar_cap east). by_computation.
Defined.

(** X3: the complement of a bound is empty exactly when the height of the
    bound exceeds 2.  The complement of an empty bound is the whole sphere:
    it is not empty, its area is [4 * PI], it contains every point of the
    unit ball, and complementing it again gives a bound of height 0, not
    the empty bound one started from. *)
Theorem complement_of_empty (PI : double) (b : circle_bound) (p : point) :
  (is_empty (complement b) = true <-> 2 < height_ b)
  /\ (height_ b < 0 ->
      dot (axis_ b) (axis_ b) <= 1 -> dot p p <= 1 ->
      is_empty (complement b) = false
      /\ area PI (complement b) == 4 * PI
      /\ contains (complement b) p = true
      /\ height_ (complement (complement b)) == 0
      /\ is_empty (complement (complement b)) = false).
Proof.
  split.
  - rewrite is_empty_true. unfold complement.
    destruct (is_empty b) eqn:E; simpl.
    + apply is_empty_true in E. split; intro H; lra.
    + split; intro H; lra.
  - intros Hh Ha Hp.
    rewrite (complement_empty b Hh).
    assert (E : is_empty (from_height (neg (axis_ b)) 2) = false).
    { apply is_empty_false. simpl. lra. }
    split; [exact E |].
    split; [unfold area; rewrite E; simpl; ring |].
    split.
    { apply contains_iff. simpl.
      pose proof (dot_neg_l (axis_ b) p).
      pose proof (dot_le_1 (axis_ b) p Ha Hp). lra. }
    rewrite complement_nonempty by (simpl; lra). simpl.
    split; [ring | apply is_empty_false; simpl; lra].
Qed.

Lemma complement_of_empty_witness :
  is_empty (complement (circle_bound_default north)) = false
  /\ area (355 # 113) (complement (circle_bound_default north))
     == 4 * (355 # 113)
  /\ contains (complement (circle_bound_default north)) east = true
  /\ height_ (complement (complement (circle_bound_default north))) == 0
  /\ is_empty (complement (complement (circle_bound_default north))) = false.
Proof.
  apply (proj2 (complement_of_empty (355 # 113) (circle_bound_default north)
                  east)); by_computation.
Defined.

(** X4: on the unit sphere a bound of height 0 contains its axis and no
    other point, and a bound of height 2 contains every point. *)
Theorem degenerate_caps (b : circle_bound) (p : point) :
  is_unit (axis_ b) -> is_unit p ->
  (height_ b == 0 -> (contains b p = true <-> same_direction p (axis_ b)))
  /\ (height_ b == 2 -> contains b p = true).
Proof.
  intros Ha Hp. split; intro Hh; rewrite contains_iff.
  - split.
    + intro H. apply unit_dot_one; [exact Ha | exact Hp | lra].
    + intro H. pose proof (same_direction_dot _ _ Ha H). lra.
  - unfold is_unit in Ha, Hp.
    pose proof (dot_ge_minus_1 (axis_ b) p). lra.
Qed.

Lemma degenerate_caps_witness :
  (contains (from_height north 0) north = true <-> same_direction north north)
  /\ contains (from_height north 2) south = true.
Proof.
  split.
  - apply (proj1 (degenerate_caps (from_height north 0) north
                    ltac:(by_computation) ltac:(by_computation))).
    by_computation.
  - apply (proj2 (degenerate_caps (from_height north 2) south
                    ltac:(by_computation) ltac:(by_computation))).
    by_computation.
Defined.

(** X5: for a non-negative [PI] the area is never negative and grows with
    the height; it stays within [4 * PI] exactly as long as the height
    stays within 2, and it is 0 for an empty bound. *)
Theorem area_bounds (PI : double) (b b' : circle_bound) :
  0 <= PI ->
  0 <= area PI b
  /\ (height_ b <= height_ b' -> area PI b <= area PI b')
  /\ (height_ b <= 2 -> area PI b <= 4 * PI)
  /\ (0 < PI -> 2 < height_ b -> 4 * PI < area PI b)
  /\ (height_ b < 0 -> area PI b = 0).
Proof.
  intro HPI. unfold area.
  destruct (is_empty b) eqn:E; simpl.
  - apply is_empty_true in E.
    split; [lra |].
    split.
    { intros _. destruct (is_empty b') eqn:E'; simpl; [lra |].
      apply is_empty_false in E'. nra. }
    split; [intros _; lra |].
    split; [intros _ H; lra | reflexivity].
  - apply is_empty_false in E.
    split; [nra |].
    split.
    { intro H. destruct (is_empty b') eqn:E'; simpl.
      - apply is_empty_true in E'. lra.
      - nra. }
    split; [intro H; nra |].
    split; [intros H1 H2; nra | intro H; lra].
Qed.

Lemma area_bounds_witness :
  0 <= area (355 # 113) polar_cap
  /\ area (355 # 113) polar_cap <= area (355 # 113) southern_cap
  /\ area (355 # 113) polar_cap <= 4 * (355 # 113)
  /\ 4 * (355 # 113) < area (355 # 113) (from_height north 3)
  /\ area (355 # 113) (circle_bound_default north) = 0.
Proof.
  split; [| split; [| split; [| split]]].
  - destruct (area_bounds (355 # 113) polar_cap polar_cap) as [H _];
      [by_computation | exact H].
  - destruct (area_bounds (355 # 113) polar_cap southern_cap) as [_ [H _]];
      [by_computation |].
    apply H. by_computation.
  - destruct (area_bounds (355 # 113) polar_cap polar_cap) as [_ [_ [H _]]];
      [by_computation |].
    apply H. by_computation.
  - destruct (area_bounds (355 # 113) (from_height north 3) polar_cap)
      as [_ [_ [_ [H _]]]]; [by_computation |].
    apply H; by_computation.
  - destruct (area_bounds (355 # 113) (circle_bound_default north) polar_cap)
      as [_ [_ [_ [_ H]]]]; [by_computation |].
    apply H. by_computation.
Defined.

(** X6: [may_intersect] always returns a boolean.  It returns true exactly
    when [vertex(4)] passes the point test, or the bound is not empty, of
    height below 1, and the pixel contains its axis; the vertices 0 to 3
    and the edges have no part in the answer. *)
Theorem may_intersect_closed_form (b : circle_bound) (pix : pixel) :
  exists m, may_intersect b pix = Some m
    /\ (m = true <->
        1 - dot (axis_ b) (vertex pix 4) <= height_ b
        \/ (0 <= height_ b /\ height_ b < 1
            /\ pixel_contains pix (axis_ b) = true)).
Proof.
  rewrite may_intersect_value. eexists. split; [reflexivity |].
  rewrite orb_true_iff, !andb_true_iff, !negb_true_iff.
  rewrite contains_iff, is_empty_false.
  unfold dge. rewrite dle_false. tauto.
Qed.

(** X7: when four vertices are handed in, [intersects] returns a boolean
    for every bound and pixel.  With an empty vertex vector it reads out of
    range as soon as edge 0 reaches the vertex test. *)
Theorem intersects_vertex_reads (b : circle_bound) (pix : pixel)
    (vs : list point) :
  (length vs = 4%nat -> exists r, intersects b pix vs = Some r)
  /\ (0 <= height_ b -> height_ b < 1 ->
      pixel_contains pix (axis_ b) = false ->
      edge_dot b pix 0 <= 0 ->
      edge_dot b pix 0 * edge_dot b pix 0 <= height_ b * (2 - height_ b) ->
      intersects b pix [] = None).
Proof.
  split.
  - intro Hlen. unfold intersects.
    destruct (dge (height_ b) 1); [eauto |].
    destruct (is_empty b); [eauto |].
    destruct (pixel_contains pix (axis_ b)); [eauto |].
    apply (intersects_edges_total b pix vs Hlen _ indices_in_range).
  - intros Hlo Hhi Hax Hd Hd2.
    rewrite (intersects_small b pix [] Hlo Hhi), Hax. simpl.
    fold (edge_dot b pix 0).
    assert (E1 : dgt (edge_dot b pix 0) 0 = false) by (apply dlt_false; exact Hd).
    assert (E2 : dgt (edge_dot b pix 0 * edge_dot b pix 0)
                   (height_ b * (2 - height_ b)) = false)
      by (apply dlt_false; exact Hd2).
    rewrite E1, E2. reflexivity.
Qed.

Lemma intersects_vertex_reads_witness :
  (exists r, intersects polar_cap (quad quad_v0) (vertices_of (quad quad_v0))
             = Some r)
  /\ intersects polar_cap (quad quad_v0) [] = None.
Proof.
  split.
  - apply (proj1 (intersects_vertex_reads polar_cap (quad quad_v0)
                    (vertices_of (quad quad_v0)))).
    reflexivity.
  - apply (proj2 (intersects_vertex_reads polar_cap (quad quad_v0) []));
      try by_computation.
Defined.

Lemma intersects_on_convex_cell_witness :
  intersects polar_cap (quad quad_v0) (vertices_of (quad quad_v0)) = Some true
  <-> exists k, (0 <= k < 4)%Z
        /\ edge_confirms polar_cap (quad quad_v0)
             (vertices_of (quad quad_v0)) k.
Proof.
  apply (intersects_on_convex_cell polar_cap (quad quad_v0));
    [exact (proj1 quad_is_convex_cell) | by_computation | by_computation
    | reflexivity].
Defined.

(** ** Bounds on the integrated area *)

Lemma fold_plus_shift (l : list Q) (s : Q) :
  fold_left Qplus l s == s + sum_areas l.
Proof.
  unfold sum_areas. revert s.
  induction l as [| x l IH]; intro s; simpl; [ring |].
  rewrite (IH (s + x)), (IH (0 + x)). ring.
Qed.

Lemma sum_areas_cons (x : Q) (l : list Q) :
  sum_areas (x :: l) == x + sum_areas l.
Proof.
  unfold sum_areas at 1. simpl. rewrite fold_plus_shift. ring.
Qed.

Lemma hierarchy_ok_node (v e : Z -> point) (c : point -> bool)
    (a : double) (ch : list pixel) :
  hierarchy_ok (mk_pixel v e c a ch) ->
  0 <= a /\ sum_areas (map exact_area ch) <= a /\ Forall hierarchy_ok ch.
Proof.
  simpl. intros [Ha [Hsum Hall]].
  split; [exact Ha | split; [exact Hsum |]].
  clear Hsum. induction ch as [| child rest IH]; constructor.
  - apply Hall.
  - apply IH. apply Hall.
Qed.

Lemma children_areas_bounded (b : circle_bound) (ch : list pixel) :
  Forall (fun pix => hierarchy_ok pix ->
            exists a, contained_area b pix = Some a
                      /\ 0 <= a /\ a <= exact_area pix) ch ->
  Forall hierarchy_ok ch ->
  exists areas,
    map (contained_area b) ch = map Some areas
    /\ 0 <= sum_areas areas
    /\ sum_areas areas <= sum_areas (map exact_area ch).
Proof.
  induction 1 as [| child rest Hchild _ IH]; intro Hok.
  - exists []. split; [reflexivity |]. unfold sum_areas. simpl. lra.
  - inversion Hok as [| ? ? Hc Hrest]; subst.
    destruct (Hchild Hc) as [x [Ex [Hx0 Hx1]]].
    destruct (IH Hrest) as [areas [Eareas [Hs0 Hs1]]].
    exists (x :: areas). simpl map.
    split; [rewrite Ex, Eareas; reflexivity |].
    rewrite !sum_areas_cons. lra.
Qed.

(** X8: on a hierarchy whose exact areas are non-negative and whose
    children never add up to more than their parent, [contained_area]
    returns, for every bound, an area between 0 and the exact area of the
    pixel. *)
Theorem contained_area_bounds (b : circle_bound) (pix : pixel) :
  hierarchy_ok pix ->
  exists a, contained_area b pix = Some a /\ 0 <= a /\ a <= exact_area pix.
Proof.
  induction pix as [v e c a ch IH] using pixel_tree_ind.
  intro Hok.
  destruct (hierarchy_ok_node v e c a ch Hok) as [Ha [Hsum Hch]].
  destruct (children_areas_bounded b ch IH Hch) as [areas [Eareas [Hs0 Hs1]]].
  rewrite contained_area_equation.
  destruct (contains_pixel_value b (mk_pixel v e c a ch)) as [cp ->].
  rewrite may_intersect_value. simpl.
  destruct cp.
  - exists a. split; [reflexivity | lra].
  - match goal with |- context [if ?m then _ else _] => destruct m end.
    + rewrite (sum_children _ _ _ _ Eareas).
      exists (fold_left Qplus areas 0).
      split; [reflexivity |]. fold (sum_areas areas). lra.
    + exists 0. split; [reflexivity | lra].
Qed.

Lemma contained_area_bounds_witness :
  exists a, contained_area southern_cap quad_tree = Some a
            /\ 0 <= a /\ a <= exact_area quad_tree.
Proof.
  apply (contained_area_bounds southern_cap quad_tree).
  simpl. repeat split; by_computation.
Defined.

(** X9: for an empty bound with its axis in the unit ball, a pixel whose
    [vertex(0)] and [vertex(4)] are in the unit ball is not contained, and
    its contained area is 0, whatever its children are. *)
Theorem empty_bound_contains_no_area (b : circle_bound) (pix : pixel) :
  height_ b < 0 ->
  dot (axis_ b) (axis_ b) <= 1 ->
  dot (vertex pix 0) (vertex pix 0) <= 1 ->
  dot (vertex pix 4) (vertex pix 4) <= 1 ->
  contains_pixel b pix = Some false /\ contained_area b pix = Some 0.
Proof.
  intros Hh Ha H0 H4.
  assert (Hc : contains_pixel b pix = Some false).
  { unfold contains_pixel. simpl.
    rewrite (empty_contains_nothing b (vertex pix 0) Hh Ha H0). reflexivity. }
  split; [exact Hc |].
  rewrite contained_area_equation, Hc, may_intersect_value. simpl.
  rewrite (empty_contains_nothing b (vertex pix 4) Hh Ha H4).
  apply is_empty_true in Hh. rewrite Hh, andb_false_r. reflexivity.
Qed.

Lemma empty_bound_contains_no_area_witness :
  contains_pixel (circle_bound_default north) (quad quad_v0) = Some false
  /\ contained_area (circle_bound_default north) (quad quad_v0) = Some 0.
Proof.
  apply (empty_bound_contains_no_area (circle_bound_default north)
           (quad quad_v0)); by_computation.
Defined.

(** ** The random sampler *)

Section SamplerProperties.

Variable rng : Type.
Variable mt_seed : rng -> rng.
Variable mt_rand : double -> rng -> double * rng.
Variable mt_randInt : Z -> rng -> Z * rng.
Variable PI : double.
Variables c_sin c_cos c_acos : double -> double.
Variable point_xyz : double -> double -> double -> point.
Variable rotate_about : point -> point -> double -> point.
Variable max_size : Z.

Local Abbreviation init := (initialize_random rng mt_seed).
Local Abbreviation draw :=
  (get_random_point rng mt_seed mt_rand PI c_sin c_cos c_acos point_xyz
     rotate_about).
Local Abbreviation draws :=
  (get_random_points rng mt_seed mt_rand PI c_sin c_cos c_acos point_xyz
     rotate_about max_size).
Local Abbreviation draws_loop :=
  (get_random_points_loop rng mt_seed mt_rand PI c_sin c_cos c_acos
     point_xyz rotate_about).
Local Abbreviation weighted_draw :=
  (get_weighted_random_point rng mt_seed mt_rand mt_randInt PI
     c_sin c_cos c_acos point_xyz rotate_about).
Local Abbreviation weighted_draws :=
  (get_weighted_random_points rng mt_seed mt_rand mt_randInt PI
     c_sin c_cos c_acos point_xyz rotate_about).
(** The point that one turn of the loop of [get_weighted_random_points]
    appends when it starts from the sampler [t], and the sampler it leaves. *)
Local Abbreviation weighted_point_at :=
  (fun (b : circle_bound) (refs : list point) (t : sampler rng) =>
     set_weight (fst (draw b t))
       (inject_Z (fst (mt_randInt (Z.of_nat (length refs))
                         (mtrand (snd (draw b t))))))).
Local Abbreviation after_weighted_draw :=
  (fun (b : circle_bound) (refs : list point) (t : sampler rng) =>
     mk_sampler (initialized_random_ (snd (draw b t)))
       (rotate_ (snd (draw b t)))
       (great_circle_norm_ (snd (draw b t)))
       (snd (mt_randInt (Z.of_nat (length refs))
               (mtrand (snd (draw b t)))))).
Local Abbreviation weighted_draws_loop :=
  (get_weighted_random_points_loop rng mt_seed mt_rand mt_randInt PI
     c_sin c_cos c_acos point_xyz rotate_about).

(** X10: [initialize_random] stores the scalar product of the axis with
    (0, 0, 1), that is the third coordinate of the axis, in [rotate_], and
    in [great_circle_norm_] a vector orthogonal to the axis and to
    (0, 0, 1); that vector is the zero vector exactly when the axis has no
    first and second coordinate.  The flag [initialized_random_] is left as
    it was. *)
Theorem initialize_random_frame (b : circle_bound) (s : sampler rng) :
  rotate_ (init b s) == pz (axis_ b)
  /\ dot (great_circle_norm_ (init b s)) (axis_ b) == 0
  /\ dot (great_circle_norm_ (init b s)) (mk_point 0 0 1 1) == 0
  /\ (dot (great_circle_norm_ (init b s)) (great_circle_norm_ (init b s)) == 0
      <-> px (axis_ b) == 0 /\ py (axis_ b) == 0)
  /\ initialized_random_ (init b s) = initialized_random_ s
  /\ mtrand (init b s) = mt_seed (mtrand s).
Proof.
  unfold initialize_random, dot, cross. simpl.
  destruct (axis_ b) as [ax ay az aw]. simpl.
  split; [ring | split; [ring | split; [ring |]]].
  split; [| split; reflexivity].
  pose proof (Qsquare_nonneg ax) as Hx. pose proof (Qsquare_nonneg ay) as Hy.
  split.
  - intro H.
    assert (Ex : ax * ax == 0) by lra. assert (Ey : ay * ay == 0) by lra.
    apply square_zero in Ex, Ey. split; assumption.
  - intros [Ex Ey]. rewrite Ex, Ey. ring.
Qed.

(** X11: [get_random_point] never sets [initialized_random_].  A sampler
    whose flag is set draws from its generator and keeps its frame; a
    sampler whose flag is not set re-seeds the generator and recomputes the
    frame at this call, and at every later call. *)
Theorem get_random_point_flag (b : circle_bound) (s : sampler rng) :
  let ready :=
    mk_sampler true (dot (axis_ b) (mk_point 0 0 1 1))
               (cross (mk_point 0 0 1 1) (axis_ b)) (mt_seed (mtrand s)) in
  let used := if initialized_random_ s then s else ready in
  initialized_random_ (snd (draw b s)) = initialized_random_ s
  /\ fst (draw b s) = fst (draw b used)
  /\ mtrand (snd (draw b s)) = mtrand (snd (draw b used))
  /\ rotate_ (snd (draw b s)) = rotate_ used
  /\ great_circle_norm_ (snd (draw b s)) = great_circle_norm_ used
  /\ initialized_random_ (snd (draw b (snd (draw b s))))
     = initialized_random_ s.
Proof.
  cbv zeta. unfold get_random_point, initialize_random.
  destruct s as [flag rot norm g]. simpl.
  destruct flag; simpl.
  - destruct (mt_rand (height_ b) g) as [r g1].
    destruct (mt_rand (2 * PI) g1) as [phi g2]. simpl.
    destruct (mt_rand (height_ b) g2) as [r' g3].
    destruct (mt_rand (2 * PI) g3) as [phi' g4]. simpl.
    repeat split.
  - destruct (mt_rand (height_ b) (mt_seed g)) as [r g1].
    destruct (mt_rand (2 * PI) g1) as [phi g2]. simpl.
    destruct (mt_rand (height_ b) (mt_seed g2)) as [r' g3].
    destruct (mt_rand (2 * PI) g3) as [phi' g4]. simpl.
    repeat split.
Qed.

Lemma draws_loop_length (b : circle_bound) (n : nat) :
  forall (points : list point) (s : sampler rng),
    length (fst (draws_loop b n points s)) = (length points + n)%nat.
Proof.
  induction n as [| n IH]; intros points s; [simpl; lia |].
  simpl. destruct (draw b s) as [p s1].
  rewrite IH, length_app. simpl. lia.
Qed.

Lemma weighted_draws_loop_length (b : circle_bound) (refs : list point)
    (n : nat) :
  forall (points : list point) (s : sampler rng),
    length (fst (weighted_draws_loop b n points refs s))
    = (length points + n)%nat.
Proof.
  induction n as [| n IH]; intros points s; [simpl; lia |].
  simpl. destruct (draw b s) as [p s1].
  destruct (mt_randInt _ (mtrand s1)) as [i g].
  rewrite IH, length_app. simpl. lia.
Qed.

Lemma weighted_draws_loop_weights (b : circle_bound) (refs : list point)
    (n : nat) :
  forall (points : list point) (s : sampler rng),
    Forall index_weight points ->
    Forall index_weight (fst (weighted_draws_loop b n points refs s)).
Proof.
  induction n as [| n IH]; intros points s Hpoints; [exact Hpoints |].
  simpl. destruct (draw b s) as [p s1].
  destruct (mt_randInt _ (mtrand s1)) as [i g].
  apply IH. apply Forall_app. split; [exact Hpoints |].
  constructor; [| constructor]. exists i. reflexivity.
Qed.

Lemma draws_loop_points (b : circle_bound) (n : nat) :
  forall (points : list point) (s : sampler rng),
    draws_loop b n points s
    = (points ++ map (fun k => fst (draw b (Nat.iter k
                                              (fun t => snd (draw b t)) s)))
                   (seq 0 n),
       Nat.iter n (fun t => snd (draw b t)) s).
Proof.
  induction n as [| n IH]; intros points s.
  - simpl. rewrite app_nil_r. reflexivity.
  - cbn [get_random_points_loop].
    destruct (draw b s) as [p s1] eqn:E.
    assert (Hp : p = fst (draw b s)) by (rewrite E; reflexivity).
    assert (Hs : s1 = snd (draw b s)) by (rewrite E; reflexivity).
    clear E. subst p s1.
    rewrite IH, Nat.iter_succ_r.
    f_equal. rewrite <- app_assoc. f_equal.
    cbn [seq map app Nat.iter]. f_equal.
    rewrite <- seq_shift, map_map.
    apply map_ext. intro k.
    rewrite Nat.iter_succ_r. reflexivity.
Qed.

Lemma to_size_t_small (n : Z) :
  (0 <= n < 2 ^ 63)%Z -> to_size_t n = n.
Proof. intro H. unfold to_size_t. apply Z.mod_small. lia. Qed.

Lemma to_size_t_negative (n : Z) :
  (- 2 ^ 63 <= n < 0)%Z -> to_size_t n = (n + 2 ^ 64)%Z.
Proof.
  intro H. unfold to_size_t.
  symmetry. apply (Z.mod_unique n (2 ^ 64) (-1)); lia.
Qed.

(** X12: [get_random_points] empties the destination vector and reserves
    room for [n_points] points.  With [0 <= n_points <= max_size()] it
    returns exactly [n_points] points, the points [get_random_point] draws
    one after the other from the sampler, and the sampler after the last
    draw.  With a negative [n_points], or one above [max_size()], it throws
    [std::length_error] with the vector empty and no point drawn.  In no
    case does the outcome depend on what the vector held. *)
Theorem get_random_points_replaces (b : circle_bound) (n : Z)
    (out : list point) (s : sampler rng) :
  (0 <= max_size < 2 ^ 63)%Z -> (- 2 ^ 63 <= n < 2 ^ 63)%Z ->
  draws b n out s = draws b n [] s
  /\ ((0 <= n <= max_size)%Z ->
      draws b n out s
      = Returns
          (map (fun k => fst (draw b (Nat.iter k
                                        (fun t => snd (draw b t)) s)))
               (seq 0 (Z.to_nat n)),
           Nat.iter (Z.to_nat n) (fun t => snd (draw b t)) s)
      /\ length (map (fun k => fst (draw b (Nat.iter k
                                             (fun t => snd (draw b t)) s)))
                   (seq 0 (Z.to_nat n))) = Z.to_nat n)
  /\ ((n < 0 \/ max_size < n)%Z ->
      draws b n out s = Throws_length_error ([], s)).
Proof.
  intros Hmax Hn.
  assert (E : draws b n out s = draws b n [] s).
  { unfold get_random_points. destruct out; reflexivity. }
  split; [exact E |].
  rewrite E. unfold get_random_points, vec_reserve. cbn [length Nat.eqb negb].
  split.
  - intro Hin. rewrite to_size_t_small by lia.
    assert (Hle : (n <=? max_size)%Z = true) by (apply Z.leb_le; lia).
    rewrite Hle, draws_loop_points. cbn [app].
    split; [reflexivity |].
    rewrite length_map, length_seq. reflexivity.
  - intro Hout.
    assert (Hgt : (to_size_t n <=? max_size)%Z = false).
    { apply Z.leb_gt. destruct Hout as [Hneg | Hbig].
      - rewrite to_size_t_negative by lia. lia.
      - rewrite to_size_t_small by lia. lia. }
    rewrite Hgt. reflexivity.
Qed.

Lemma weighted_draws_loop_points (b : circle_bound) (refs : list point)
    (n : nat) :
  forall (points : list point) (s : sampler rng),
    weighted_draws_loop b n points refs s
    = (points
       ++ map (fun k =>
                 weighted_point_at b refs
                   (Nat.iter k (after_weighted_draw b refs) s))
            (seq 0 n),
       Nat.iter n (after_weighted_draw b refs) s).
Proof.
  induction n as [| n IH]; intros points s.
  - simpl. rewrite app_nil_r. reflexivity.
  - cbn [get_weighted_random_points_loop].
    destruct (draw b s) as [p s1] eqn:E.
    assert (Hp : p = fst (draw b s)) by (rewrite E; reflexivity).
    assert (Hs : s1 = snd (draw b s)) by (rewrite E; reflexivity).
    clear E. subst p s1.
    destruct (mt_randInt (Z.of_nat (length refs)) (mtrand (snd (draw b s))))
      as [i g] eqn:E.
    assert (Hi : i = fst (mt_randInt (Z.of_nat (length refs))
                            (mtrand (snd (draw b s)))))
      by (rewrite E; reflexivity).
    assert (Hg : g = snd (mt_randInt (Z.of_nat (length refs))
                            (mtrand (snd (draw b s)))))
      by (rewrite E; reflexivity).
    clear E. subst i g.
    rewrite IH, Nat.iter_succ_r.
    f_equal. rewrite <- app_assoc. f_equal.
    cbn [seq map app Nat.iter]. f_equal.
    rewrite <- seq_shift, map_map.
    apply map_ext. intro k.
    rewrite Nat.iter_succ_r. reflexivity.
Qed.

(** X13: [get_weighted_random_points] returns exactly [n_points] points,
    whatever the destination vector held and whatever the reference points
    are (an empty reference vector included).  The point of turn [k] is the
    point [get_random_point] draws from the sampler of that turn, its
    weight replaced by the index [randInt(size)] draws next from the
    generator, converted to a double; the sampler of the next turn has the
    generator after that draw. *)
Theorem get_weighted_random_points_shape (b : circle_bound) (n : Z)
    (out refs : list point) (s : sampler rng) :
  length (fst (weighted_draws b n out refs s)) = Z.to_nat n
  /\ weighted_draws b n out refs s = weighted_draws b n [] refs s
  /\ fst (weighted_draws b n out refs s)
     = map (fun k =>
              weighted_point_at b refs
                (Nat.iter k (after_weighted_draw b refs) s))
         (seq 0 (Z.to_nat n))
  /\ snd (weighted_draws b n out refs s)
     = Nat.iter (Z.to_nat n) (after_weighted_draw b refs) s
  /\ (forall t,
        weight (weighted_point_at b refs t)
        = inject_Z (fst (mt_randInt (Z.of_nat (length refs))
                           (mtrand (snd (draw b t)))))
        /\ px (weighted_point_at b refs t) = px (fst (draw b t))
        /\ py (weighted_point_at b refs t) = py (fst (draw b t))
        /\ pz (weighted_point_at b refs t) = pz (fst (draw b t))
        /\ mtrand (after_weighted_draw b refs t)
           = snd (mt_randInt (Z.of_nat (length refs))
                    (mtrand (snd (draw b t)))))
  /\ Forall index_weight (fst (weighted_draws b n out refs s)).
Proof.
  assert (E : weighted_draws b n out refs s
              = weighted_draws_loop b (Z.to_nat n) [] refs s).
  { unfold get_weighted_random_points. destruct out; reflexivity. }
  split; [rewrite E; apply weighted_draws_loop_length |].
  split; [rewrite E; reflexivity |].
  split; [rewrite E, weighted_draws_loop_points; reflexivity |].
  split; [rewrite E, weighted_draws_loop_points; reflexivity |].
  split; [intro t; repeat split |].
  rewrite E. apply weighted_draws_loop_weights. constructor.
Qed.

(** X14: [get_weighted_random_point] draws its point as [get_random_point]
    does and then one index.  It reads the reference vector out of range
    exactly when that index is negative or not below the size of the
    vector, which is always the case for an empty vector; otherwise the
    point it returns has the coordinates of the drawn point and the weight
    of the reference point at the index. *)
Theorem get_weighted_random_point_lookup (b : circle_bound)
    (points : list point) (s : sampler rng) :
  let p := fst (draw b s) in
  let i := fst (mt_randInt (Z.of_nat (length points))
                  (mtrand (snd (draw b s)))) in
  (weighted_draw b points s = None <->
   (i < 0)%Z \/ (Z.of_nat (length points) <= i)%Z)
  /\ weighted_draw b [] s = None
  /\ match weighted_draw b points s with
     | Some (q, s') =>
         px q = px p /\ py q = py p /\ pz q = pz p
         /\ (exists chosen, vec_at points i = Some chosen
                            /\ weight q = weight chosen)
         /\ initialized_random_ s' = initialized_random_ (snd (draw b s))
     | None => True
     end.
Proof.
  cbv zeta. unfold get_weighted_random_point.
  destruct (draw b s) as [p s1]. simpl.
  split; [| split].
  - destruct (mt_randInt (Z.of_nat (length points)) (mtrand s1)) as [i g].
    simpl. unfold vec_at.
    destruct (i <? 0)%Z eqn:Ei; simpl.
    + apply Z.ltb_lt in Ei. split; [intros _; lia | reflexivity].
    + apply Z.ltb_ge in Ei.
      destruct (nth_error points (Z.to_nat i)) as [chosen |] eqn:En; simpl.
      * split; [discriminate |].
        assert (Hlt : (Z.to_nat i < length points)%nat)
          by (apply nth_error_Some; congruence).
        lia.
      * split; [| reflexivity].
        intros _. apply nth_error_None in En. lia.
  - destruct (mt_randInt 0%Z (mtrand s1)) as [i g].
    unfold vec_at. destruct (i <? 0)%Z; [reflexivity |].
    destruct (Z.to_nat i); reflexivity.
  - destruct (mt_randInt (Z.of_nat (length points)) (mtrand s1)) as [i g].
    simpl.
    destruct (vec_at points i) as [chosen |] eqn:E; simpl; [| exact I].
    repeat split. exists chosen. split; reflexivity.
Qed.

End SamplerProperties.

Lemma get_random_points_replaces_witness :
  (exists pts s',
     example_get_random_points polar_cap 2 [north] fresh_sampler
     = Returns (pts, s')
     /\ length pts = 2%nat)
  /\ example_get_random_points polar_cap (-1) [north] fresh_sampler
     = Throws_length_error ([], fresh_sampler).
Proof.
  split.
  - destruct (get_random_points_replaces nat (fun g => g) counting_rand 3
                (fun x => x) (fun x => x) (fun x => x)
                (fun x y z => mk_point x y z 1) (fun p _ _ => p) 1000
                polar_cap 2 [north] fresh_sampler) as [_ [H _]];
      [lia | lia |].
    destruct H as [E Hlen]; [lia |].
    eexists. eexists. split; [exact E | exact Hlen].
  - destruct (get_random_points_replaces nat (fun g => g) counting_rand 3
                (fun x => x) (fun x => x) (fun x => x)
                (fun x y z => mk_point x y z 1) (fun p _ _ => p) 1000
                polar_cap (-1) [north] fresh_sampler) as [_ [_ H]];
      [lia | lia |].
    apply H. lia.
Defined.

(** ** The constructors from a radius and from an angular bin *)

(** X15: a cosine in [-1, 1] makes [from_radius] and [from_angular_bin]
    build a non-empty bound of height in [0, 2] around the axis handed in;
    a cosine of 1 gives, on the unit sphere, the bound that contains its
    axis only; a cosine above 1 gives an empty bound. *)
Theorem factories_heights (DEG_TO_RAD : double) (c_cos : double -> double)
    (axis p : point) (radius_degrees : double) (bin : angular_bin) :
  let by_radius := from_radius DEG_TO_RAD c_cos axis radius_degrees in
  let by_bin := from_angular_bin axis bin in
  axis_ by_radius = axis /\ axis_ by_bin = axis
  /\ (-1 <= c_cos (radius_degrees * DEG_TO_RAD) <= 1 ->
      is_empty by_radius = false
      /\ 0 <= height_ by_radius /\ height_ by_radius <= 2)
  /\ (-1 <= cos_theta_max bin <= 1 ->
      is_empty by_bin = false
      /\ 0 <= height_ by_bin /\ height_ by_bin <= 2)
  /\ (1 < cos_theta_max bin -> is_empty by_bin = true)
  /\ (c_cos (radius_degrees * DEG_TO_RAD) == 1 ->
      is_unit axis -> is_unit p ->
      (contains by_radius p = true <-> same_direction p axis)).
Proof.
  cbv zeta. unfold from_radius, from_angular_bin, circle_bound_new.
  split; [reflexivity | split; [reflexivity |]].
  split; [intros [H1 H2]; rewrite is_empty_false; simpl; repeat split; lra |].
  split; [intros [H1 H2]; rewrite is_empty_false; simpl; repeat split; lra |].
  split; [intro H; apply is_empty_true; simpl; lra |].
  intros Hc Ha Hp. rewrite contains_iff. simpl. split.
  - intro H. apply unit_dot_one; [exact Ha | exact Hp | lra].
  - intro H. pose proof (same_direction_dot _ _ Ha H). lra.
Qed.

Lemma factories_heights_witness :
  (is_empty (from_radius (1 # 57) (fun _ => 1 # 2) north 60) = false
   /\ 0 <= height_ (from_radius (1 # 57) (fun _ => 1 # 2) north 60)
   /\ height_ (from_radius (1 # 57) (fun _ => 1 # 2) north 60) <= 2)
  /\ (is_empty (from_angular_bin north (mk_angular_bin (1 # 2))) = false
      /\ 0 <= height_ (from_angular_bin north (mk_angular_bin (1 # 2)))
      /\ height_ (from_angular_bin north (mk_angular_bin (1 # 2))) <= 2)
  /\ is_empty (from_angular_bin north (mk_angular_bin 2)) = true
  /\ (contains (from_radius (1 # 57) (fun _ => 1) north 0) north = true
      <-> same_direction north north).
Proof.
  split; [| split; [| split]].
  - destruct (factories_heights (1 # 57) (fun _ => 1 # 2) north north 60
                (mk_angular_bin (1 # 2))) as [_ [_ [H _]]].
    apply H. split; by_computation.
  - destruct (factories_heights (1 # 57) (fun _ => 1 # 2) north north 60
                (mk_angular_bin (1 # 2))) as [_ [_ [_ [H _]]]].
    apply H. split; by_computation.
  - destruct (factories_heights (1 # 57) (fun _ => 1 # 2) north north 60
                (mk_angular_bin 2)) as [_ [_ [_ [_ [H _]]]]].
    apply H. by_computation.
  - destruct (factories_heights (1 # 57) (fun _ => 1) north north 0
                (mk_angular_bin 2)) as [_ [_ [_ [_ [_ H]]]]].
    apply H; by_computation.
Defined.

(** ** trunk/stomp_core.cc: comparisons with a tolerance *)

Lemma DoubleLT_spec (a b : double) :
  Stomp.DoubleLT a b = true <-> a < b - Stomp.tolerance.
Proof. unfold Stomp.DoubleLT. rewrite <- dlt_spec. destruct (dlt _ _); intuition. Qed.

Lemma DoubleLE_spec (a b : double) :
  Stomp.DoubleLE a b = true <-> a <= b + Stomp.tolerance.
Proof. unfold Stomp.DoubleLE. rewrite <- dle_spec. destruct (dle _ _); intuition. Qed.

Lemma DoubleGT_spec (a b : double) :
  Stomp.DoubleGT a b = true <-> b + Stomp.tolerance < a.
Proof. unfold Stomp.DoubleGT. rewrite <- dgt_spec. destruct (dgt _ _); intuition. Qed.

Lemma DoubleGE_spec (a b : double) :
  Stomp.DoubleGE a b = true <-> b - Stomp.tolerance <= a.
Proof. unfold Stomp.DoubleGE. rewrite <- dge_spec. destruct (dge _ _); intuition. Qed.

Lemma DoubleEQ_spec (a b : double) :
  Stomp.DoubleEQ a b = true <->
  - Stomp.tolerance <= a - b /\ a - b <= Stomp.tolerance.
Proof.
  unfold Stomp.DoubleEQ.
  destruct (Stomp.DoubleLE a b) eqn:E1; destruct (Stomp.DoubleGE a b) eqn:E2;
    simpl.
  - apply DoubleLE_spec in E1. apply DoubleGE_spec in E2.
    split; [intros _; split; lra | reflexivity].
  - split; [discriminate |]. intros [H1 H2].
    assert (H : Stomp.DoubleGE a b = true) by (apply DoubleGE_spec; lra).
    congruence.
  - split; [discriminate |]. intros [H1 H2].
    assert (H : Stomp.DoubleLE a b = true) by (apply DoubleLE_spec; lra).
    congruence.
  - split; [discriminate |]. intros [H1 H2].
    assert (H : Stomp.DoubleLE a b = true) by (apply DoubleLE_spec; lra).
    congruence.
Qed.

(** X16: in exact arithmetic [DoubleEQ(a, b)] holds exactly when [a] and [b]
    differ by at most 1e-10; it is symmetric; [DoubleLT] is the negation of
    [DoubleGE], [DoubleGT] the negation of [DoubleLE] and the mirror image
    of [DoubleLT]; and of [DoubleLT], [DoubleEQ], [DoubleGT] exactly one
    holds. *)
Theorem tolerant_comparisons (a b : double) :
  (Stomp.DoubleEQ a b = true <->
   - Stomp.tolerance <= a - b /\ a - b <= Stomp.tolerance)
  /\ Stomp.DoubleEQ a b = Stomp.DoubleEQ b a
  /\ Stomp.DoubleLT a b = negb (Stomp.DoubleGE a b)
  /\ Stomp.DoubleGT a b = negb (Stomp.DoubleLE a b)
  /\ Stomp.DoubleGT a b = Stomp.DoubleLT b a
  /\ ((Stomp.DoubleLT a b = true /\ Stomp.DoubleEQ a b = false
       /\ Stomp.DoubleGT a b = false)
      \/ (Stomp.DoubleLT a b = false /\ Stomp.DoubleEQ a b = true
          /\ Stomp.DoubleGT a b = false)
      \/ (Stomp.DoubleLT a b = false /\ Stomp.DoubleEQ a b = false
          /\ Stomp.DoubleGT a b = true)).
Proof.
  assert (Htol : 0 < Stomp.tolerance) by by_computation.
  split; [apply DoubleEQ_spec |].
  split.
  { apply bool_eq_iff. rewrite !DoubleEQ_spec. split; intros [H1 H2]; split; lra. }
  split.
  { apply bool_eq_iff. rewrite negb_true_iff, DoubleLT_spec.
    rewrite <- not_true_iff_false, DoubleGE_spec. split; intro H; lra. }
  split.
  { apply bool_eq_iff. rewrite negb_true_iff, DoubleGT_spec.
    rewrite <- not_true_iff_false, DoubleLE_spec. split; intro H; lra. }
  split.
  { apply bool_eq_iff. rewrite DoubleGT_spec, DoubleLT_spec.
    split; intro H; lra. }
  rewrite <- !not_true_iff_false.
  rewrite DoubleLT_spec, DoubleEQ_spec, DoubleGT_spec.
  destruct (Qlt_le_dec a (b - Stomp.tolerance)) as [H | H].
  - left. split; [exact H | split; intro H'; lra].
  - destruct (Qlt_le_dec (b + Stomp.tolerance) a) as [H' | H'].
    + right; right. split; [lra | split; [intro; lra | exact H']].
    + right; left. split; [lra | split; [split; lra | lra]].
Qed.

(** X17: [DoubleLT(a, b)] implies [a < b] and [a <= b] implies
    [DoubleLE(a, b)]; [DoubleLT] is transitive; [DoubleEQ] and [DoubleLE]
    are not: 0 and 1e-10 compare equal, 1e-10 and 2e-10 compare equal, 0
    and 2e-10 do not, and likewise for [DoubleLE] downwards. *)
Theorem tolerant_order :
  (forall a b, Stomp.DoubleLT a b = true -> a < b)
  /\ (forall a b, a <= b -> Stomp.DoubleLE a b = true)
  /\ (forall a b c, Stomp.DoubleLT a b = true -> Stomp.DoubleLT b c = true ->
        Stomp.DoubleLT a c = true)
  /\ ~ (forall a b c, Stomp.DoubleEQ a b = true -> Stomp.DoubleEQ b c = true ->
          Stomp.DoubleEQ a c = true)
  /\ ~ (forall a b c, Stomp.DoubleLE a b = true -> Stomp.DoubleLE b c = true ->
          Stomp.DoubleLE a c = true).
Proof.
  assert (Htol : 0 < Stomp.tolerance) by by_computation.
  split; [intros a b H; apply DoubleLT_spec in H; lra |].
  split; [intros a b H; apply DoubleLE_spec; lra |].
  split.
  { intros a b c H1 H2. apply DoubleLT_spec in H1, H2.
    apply DoubleLT_spec. lra. }
  split.
  - intro H.
    specialize (H 0 Stomp.tolerance (2 * Stomp.tolerance) eq_refl eq_refl).
    discriminate H.
  - intro H.
    specialize (H (2 * Stomp.tolerance) Stomp.tolerance 0 eq_refl eq_refl).
    discriminate H.
Qed.

(** ** trunk/stomp_core.cc: the most significant bit *)

Lemma wrap_small (w x : Z) : (0 <= x < 2 ^ w)%Z -> Stomp.wrap w x = x.
Proof. intro H. unfold Stomp.wrap. apply Z.mod_small. exact H. Qed.

Lemma MostSignificantBit_loop_log2 (fuel : nat) :
  forall x acc : Z,
    (0 <= x < 2 ^ 32)%Z -> (0 <= acc)%Z -> (acc + Z.log2 x < 256)%Z ->
    (Z.to_nat (Z.log2 x) < fuel)%nat ->
    Stomp.MostSignificantBit_loop fuel x acc = Some (acc + Z.log2 x)%Z.
Proof.
  induction fuel as [| fuel IH]; intros x acc Hx Hacc Hsum Hfuel; [lia |].
  simpl.
  assert (Hhalf : (0 <= Z.shiftr x 1 < 2 ^ 32)%Z).
  { rewrite Z.shiftr_div_pow2 by lia. change (2 ^ 1)%Z with 2%Z.
    split; [apply Z.div_pos; lia |].
    apply Z.div_lt_upper_bound; lia. }
  rewrite (wrap_small 32 _ Hhalf).
  pose proof (Z.log2_nonneg x) as Hlog.
  destruct (Z.shiftr x 1 =? 0)%Z eqn:E.
  - apply Z.eqb_eq in E.
    rewrite Z.shiftr_div_pow2 in E by lia. change (2 ^ 1)%Z with 2%Z in E.
    assert (Hsmall : (x < 2)%Z).
    { destruct (Z.lt_ge_cases x 2) as [H | H]; [exact H |].
      pose proof (Z.div_le_mono 2 x 2 ltac:(lia) H) as Hd.
      change (2 / 2)%Z with 1%Z in Hd. lia. }
    assert (Hl : Z.log2 x = 0%Z).
    { destruct (Z.eq_dec x 0) as [-> | Hne]; [reflexivity |].
      replace x with 1%Z by lia. reflexivity. }
    rewrite Hl, Z.add_0_r. reflexivity.
  - apply Z.eqb_neq in E.
    assert (Hx2 : (2 <= x)%Z).
    { destruct (Z.lt_ge_cases x 2) as [H | H]; [| exact H].
      exfalso. apply E.
      rewrite Z.shiftr_div_pow2 by lia. apply Z.div_small. simpl. lia. }
    assert (Hl1 : (1 <= Z.log2 x)%Z).
    { change 1%Z with (Z.log2 2). apply Z.log2_le_mono. exact Hx2. }
    assert (Hshift : Z.log2 (Z.shiftr x 1) = (Z.log2 x - 1)%Z).
    { rewrite Z.log2_shiftr by lia. lia. }
    rewrite (wrap_small 8 (acc + 1)) by lia.
    rewrite (IH (Z.shiftr x 1) (acc + 1)%Z Hhalf); try lia.
    rewrite Hshift. f_equal. lia.
Qed.

(** X18: with fuel for 32 turns or more, [MostSignificantBit] returns the
    binary logarithm, rounded down, of its 32-bit argument: a result [r]
    between 0 and 31 with [2^r <= input < 2^(r+1)] for a positive input; on
    0 it returns 0, as it does on 1. *)
Theorem MostSignificantBit_log2 (fuel : nat) (input_int : Z) :
  (32 <= fuel)%nat ->
  let x := Stomp.wrap 32 input_int in
  Stomp.MostSignificantBit fuel input_int = Some (Z.log2 x)
  /\ (0 <= Z.log2 x <= 31)%Z
  /\ ((0 < x)%Z -> (2 ^ Z.log2 x <= x < 2 ^ (Z.log2 x + 1))%Z)
  /\ Stomp.MostSignificantBit fuel 0 = Some 0%Z
  /\ Stomp.MostSignificantBit fuel 1 = Some 0%Z.
Proof.
  intros Hfuel x.
  assert (Hx : (0 <= x < 2 ^ 32)%Z)
    by (unfold x, Stomp.wrap; apply Z.mod_pos_bound; lia).
  assert (Hlog : (0 <= Z.log2 x <= 31)%Z).
  { split; [apply Z.log2_nonneg |].
    destruct (Z.eq_dec x 0) as [-> | Hne]; [simpl; lia |].
    assert (Z.log2 x < 32)%Z; [| lia].
    apply Z.log2_lt_pow2; lia. }
  assert (Hmsb : forall y, (0 <= y < 2 ^ 32)%Z ->
            Stomp.MostSignificantBit_loop fuel y 0 = Some (Z.log2 y)).
  { intros y Hy.
    assert (Hly : (0 <= Z.log2 y <= 31)%Z).
    { split; [apply Z.log2_nonneg |].
      destruct (Z.eq_dec y 0) as [-> | Hne]; [simpl; lia |].
      assert (Z.log2 y < 32)%Z; [| lia].
      apply Z.log2_lt_pow2; lia. }
    rewrite (MostSignificantBit_loop_log2 fuel y 0); try lia.
    reflexivity. }
  split; [apply (Hmsb x Hx) |].
  split; [exact Hlog |].
  split; [intro Hpos; apply Z.log2_spec; exact Hpos |].
  split; [apply (Hmsb 0%Z); lia | apply (Hmsb 1%Z); lia].
Qed.

Lemma MostSignificantBit_log2_witness :
  Stomp.MostSignificantBit 32 1000 = Some (Z.log2 (Stomp.wrap 32 1000))
  /\ (0 <= Z.log2 (Stomp.wrap 32 1000) <= 31)%Z
  /\ ((0 < Stomp.wrap 32 1000)%Z ->
      (2 ^ Z.log2 (Stomp.wrap 32 1000) <= Stomp.wrap 32 1000
       < 2 ^ (Z.log2 (Stomp.wrap 32 1000) + 1))%Z)
  /\ Stomp.MostSignificantBit 32 0 = Some 0%Z
  /\ Stomp.MostSignificantBit 32 1 = Some 0%Z.
Proof.
  apply (MostSignificantBit_log2 32 1000). lia.
Defined.

(** ** trunk/stomp_core.cc: the constants *)

(** X19: none of the integer constants wraps around in its type: the
    resolutions are the powers of two of their levels, which
    [MostSignificantBit] gives back; there are 14 resolution levels;
    [MaxSuperpixnum] is 36 * 13 * 4 * 4 and [MaxPixnum] is
    36 * 13 * 2048 * 2048, below [2^32]; the same count at
    [MaxPixelResolution] would not fit in 32 bits. *)
Theorem integer_constants :
  Stomp.HPixResolution = (2 ^ Stomp.HPixLevel)%Z
  /\ Stomp.MaxPixelResolution = (2 ^ Stomp.MaxPixelLevel)%Z
  /\ Stomp.MostSignificantBit 32 Stomp.HPixResolution = Some Stomp.HPixLevel
  /\ Stomp.MostSignificantBit 32 Stomp.MaxPixelResolution
     = Some Stomp.MaxPixelLevel
  /\ Stomp.ResolutionLevels = 14%Z
  /\ Stomp.MaxSuperpixnum = (36 * 13 * 4 * 4)%Z
  /\ Stomp.MaxPixnum = (36 * 13 * 2048 * 2048)%Z
  /\ (Stomp.MaxPixnum < 2 ^ 32)%Z
  /\ (2 ^ 32 <= Stomp.Nx0 * Stomp.Ny0
                * Stomp.MaxPixelResolution * Stomp.MaxPixelResolution)%Z.
Proof.
  repeat split; vm_compute; congruence.
Qed.

Lemma angle_algebra (P x S : Q) :
  ~ P == 0 ->
  180 / P * (P / 180 * x) == x
  /\ 180 * 180 / (P * P) == 180 / P * (180 / P)
  /\ 4 * P * S / inject_Z 7488 * inject_Z 7488 == 4 * P * S
  /\ P / 180 * (185 - 90) == P / 180 * 95.
Proof.
  intro HP.
  split; [field; exact HP |].
  split; [field; exact HP |].
  split; [field; discriminate | ring].
Qed.

(** X20: as long as [Pi] is not 0, converting degrees to radians and back
    gives the angle one started from, [StradToDeg] is the square of
    [RadToDeg], and [HPixArea] times the number [MaxSuperpixnum] of
    superpixels is the area [4 * Pi * StradToDeg] of the whole sphere. *)
Theorem angle_constants (c_asin : double -> double) (x : double) :
  ~ Stomp.Pi c_asin == 0 ->
  Stomp.RadToDeg c_asin * (Stomp.DegToRad c_asin * x) == x
  /\ Stomp.StradToDeg c_asin == Stomp.RadToDeg c_asin * Stomp.RadToDeg c_asin
  /\ Stomp.HPixArea c_asin * inject_Z Stomp.MaxSuperpixnum
     == 4 * Stomp.Pi c_asin * Stomp.StradToDeg c_asin
  /\ Stomp.Node c_asin == Stomp.DegToRad c_asin * 95.
Proof.
  intro HPi.
  exact (angle_algebra (Stomp.Pi c_asin) x (Stomp.StradToDeg c_asin) HPi).
Qed.

Lemma angle_constants_witness :
  Stomp.RadToDeg (fun _ => 11 # 7) * (Stomp.DegToRad (fun _ => 11 # 7) * 90)
  == 90
  /\ Stomp.StradToDeg (fun _ => 11 # 7)
     == Stomp.RadToDeg (fun _ => 11 # 7) * Stomp.RadToDeg (fun _ => 11 # 7)
  /\ Stomp.HPixArea (fun _ => 11 # 7) * inject_Z Stomp.MaxSuperpixnum
     == 4 * Stomp.Pi (fun _ => 11 # 7) * Stomp.StradToDeg (fun _ => 11 # 7)
  /\ Stomp.Node (fun _ => 11 # 7) == Stomp.DegToRad (fun _ => 11 # 7) * 95.
Proof.
  apply (angle_constants (fun _ => 11 # 7) 90). by_computation.
Defined.

(** ** What [contains(pixel)] computes *)

(** X22: [contains(pixel)] always returns a boolean.  It returns true
    exactly when the vertices 0 to 3 pass the point test of the bound,
    [vertex(4)] fails the point test of the complement, and it is not the
    case that the complement has a height in [0, 1) and the pixel contains
    the axis of the complement. *)
Theorem contains_pixel_closed_form (b : circle_bound) (pix : pixel) :
  exists c, contains_pixel b pix = Some c
    /\ (c = true <->
        (forall k, (0 <= k < 4)%Z ->
           1 - dot (axis_ b) (vertex pix k) <= height_ b)
        /\ height_ (complement b)
           < 1 - dot (axis_ (complement b)) (vertex pix 4)
        /\ ~ (0 <= height_ (complement b) /\ height_ (complement b) < 1
              /\ pixel_contains pix (axis_ (complement b)) = true)).
Proof.
  unfold contains_pixel.
  destruct (contains_loop b pix [0; 1; 2; 3]%Z) eqn:E.
  - rewrite may_intersect_value. simpl. eexists. split; [reflexivity |].
    rewrite negb_true_iff, orb_false_iff.
    rewrite contains_false_iff.
    rewrite <- not_true_iff_false, !andb_true_iff, !negb_true_iff.
    rewrite is_empty_false. unfold dge. rewrite dle_false.
    split.
    + intros [H1 H2]. split; [| split; [exact H1 | tauto]].
      intros k Hk. apply contains_iff.
      apply (proj1 (contains_loop_true b pix _) E). simpl. lia.
    + intros [_ [H1 H2]]. split; [exact H1 | tauto].
  - exists false. split; [reflexivity |].
    split; [discriminate |].
    intros [H _]. exfalso.
    assert (E' : contains_loop b pix [0; 1; 2; 3]%Z = true).
    { apply contains_loop_true. intros k Hk. apply contains_iff, H.
      simpl in Hk. lia. }
    congruence.
Qed.
